(** * Santa's Sleigh Royale: the host-authoritative simulation loop

    A shallow embedding of the game's TypeScript sources:
    - [types.ts] and [constants.ts] (data model and constants),
    - [components/GameCanvas.tsx] (the per-frame [gameLoop], [getWinner], the
      leaderboard and the network listener of a guest),
    - [App.tsx] (session handlers of the host: [initHost], its [onMessage]
      listener, [startGame], [handleTriggerGemini], [handleGameOver]; of a
      guest: [joinGame] and its listener),
    - [services/geminiService.ts] ([generateChaosEvent]),
    - [services/peerService.ts] (connections, [broadcast], [sendToHost],
      [sendToPeer], the close handler, [cleanup]).

    Modelling conventions.
    - A JavaScript [number] holding a coordinate or a time is a rational [Q];
      scores and present values, which the code only ever builds from the
      integers 1 and 5 by addition and doubling, are integers [Z].
    - [Record<string, Player>] is an association list in insertion order:
      [Object.values] enumerates string keys in the order they were added
      (peer identities are not array-index strings).
    - The frame loop mutates the state object in place; the React state of
      [App] and the ref of [GameCanvas] alias that one object, so the host
      has a single store, threaded explicitly through every function.
    - Everything a frame reads from the outside (clock, keyboard,
      [Math.random]) is gathered in a [Frame] record; everything it does to
      the outside is returned as a list of [Effect]s. *)

From Stdlib Require Import List String Bool ZArith QArith Qminmax Qround Lia Lqa.
From Stdlib Require Import Permutation Sorted.
Import ListNotations.

Local Open Scope string_scope.
Local Open Scope list_scope.
Local Open Scope Z_scope.
Local Open Scope Q_scope.

(** ** types.ts *)

Inductive GamePhase := MENU | LOBBY | PLAYING | GAME_OVER_PHASE.

Inductive PlayerSkin := SANTA | ELF | REINDEER | SNOWMAN | COOKIE.

(** [frozen?] and [inverted?] are optional fields: [None] is [undefined]. *)
Record Player := mkPlayer {
  id : string;
  x : Q;
  y : Q;
  score : Z;
  skin : PlayerSkin;
  name : string;
  isHost : bool;
  vx : Q;
  vy : Q;
  frozen : option bool;
  inverted : option bool
}.

Record Present := mkPresent {
  present_id : string;
  present_x : Q;
  present_y : Q;
  value : Z
}.

Inductive EventType :=
  SPEED_BOOST | SLOWNESS | FREEZE | REVERSE_CONTROLS | DOUBLE_POINTS | NORMAL.

Record ChaosEvent := mkChaosEvent {
  event_name : string;
  description : string;
  type : EventType;
  duration : Q;
  active : bool
}.

Record GameState := mkGameState {
  players : list (string * Player);
  presents : list Present;
  activeEvent : option ChaosEvent;
  timeLeft : Q;
  winnerId : option string
}.

Inductive NetworkMessage :=
| JOIN_REQUEST (name : string) (skin : PlayerSkin)
| JOIN_ACCEPT (gameState : GameState) (playerId : string)
| INPUT (dx dy : Z)
| GAME_UPDATE (payload : GameState)
| START_GAME
| GAME_OVER (winnerId : string).

(** ** constants.ts *)

Definition CANVAS_WIDTH : Q := 800.
Definition CANVAS_HEIGHT : Q := 600.
Definition PLAYER_SIZE : Q := 40.
Definition PRESENT_SIZE : Q := 30.
Definition GAME_DURATION : Q := 120.
Definition MOVEMENT_SPEED : Q := 5.

(** ** JavaScript objects used as maps *)

Definition EventType_eqb (a b : EventType) : bool :=
  match a, b with
  | SPEED_BOOST, SPEED_BOOST | SLOWNESS, SLOWNESS | FREEZE, FREEZE
  | REVERSE_CONTROLS, REVERSE_CONTROLS | DOUBLE_POINTS, DOUBLE_POINTS
  | NORMAL, NORMAL => true
  | _, _ => false
  end.

(** [obj[k]] *)
Fixpoint lookup {A} (k : string) (obj : list (string * A)) : option A :=
  match obj with
  | [] => None
  | (k', v) :: rest => if String.eqb k k' then Some v else lookup k rest
  end.

(** [{ ...obj, [k]: v }] and [obj[k] = v]: an existing key keeps its place,
    a new key goes last. *)
Fixpoint assign {A} (k : string) (v : A) (obj : list (string * A))
  : list (string * A) :=
  match obj with
  | [] => [(k, v)]
  | (k', v') :: rest =>
      if String.eqb k k' then (k', v) :: rest else (k', v') :: assign k v rest
  end.

(** [Object.values(obj)] *)
Definition values {A} (obj : list (string * A)) : list A := map snd obj.

(** Truthiness of an optional boolean field. *)
Definition truthy (b : option bool) : bool :=
  match b with Some true => true | _ => false end.

(** ** components/GameCanvas.tsx *)

(** What one invocation of [gameLoop] reads from its environment. *)
Record Frame := mkFrame {
  time : Q;                        (* argument of the frame callback *)
  keysPressed : string -> bool;    (* keysPressed.current *)
  random_spawn : Q;                (* Math.random() < 0.05 *)
  random_id : string;              (* Math.random().toString(36).substr(2, 9) *)
  random_x : Q;
  random_y : Q;
  random_value : Q                 (* Math.random() > 0.8 ? 5 : 1 *)
}.

(** The [let] variables the effect closes over. *)
Record LoopVars := mkLoopVars {
  lastTime : Q;
  lastNetworkUpdate : Q;
  lastEventTrigger : Q
}.

(** What one invocation of [gameLoop] does to its environment. *)
Inductive Effect :=
| SendToHost (msg : NetworkMessage)       (* peerService.sendToHost *)
| SendToPeer (peerId : string) (msg : NetworkMessage)
| Broadcast (msg : NetworkMessage)        (* peerService.broadcast *)
| OnGameOver (winner : string)            (* props.onGameOver *)
| TriggerGeminiEvent                      (* props.triggerGeminiEvent *)
| SetOverlay (eventName eventDesc : option string) (shownTime : Q)
| Render (snapshot : GameState)
| RequestAnimationFrame.

(** [state.activeEvent?.type === t] *)
Definition eventIs (ev : option ChaosEvent) (t : EventType) : bool :=
  match ev with
  | Some e => EventType_eqb (type e) t
  | None => false
  end.

(** The four [if (keysPressed...) d -= 1 / d += 1] lines. *)
Definition keyVector (keys : string -> bool) : Z * Z :=
  let dy := 0%Z in
  let dx := 0%Z in
  let dy := if keys "ArrowUp" || keys "KeyW" then (dy - 1)%Z else dy in
  let dy := if keys "ArrowDown" || keys "KeyS" then (dy + 1)%Z else dy in
  let dx := if keys "ArrowLeft" || keys "KeyA" then (dx - 1)%Z else dx in
  let dx := if keys "ArrowRight" || keys "KeyD" then (dx + 1)%Z else dx in
  (dx, dy).

(** Section 1 of the loop up to the reversal: the local vector [(dx, dy)]. *)
Definition localInput (state : GameState) (myPlayerId : string)
    (keys : string -> bool) : Z * Z :=
  match lookup myPlayerId (players state) with
  | Some myPlayer =>
      if truthy (frozen myPlayer) then (0%Z, 0%Z)
      else
        let '(dx, dy) := keyVector keys in
        if eventIs (activeEvent state) REVERSE_CONTROLS
        then ((- dx)%Z, (- dy)%Z)
        else (dx, dy)
  | None => (0%Z, 0%Z)
  end.

(** [let speed = MOVEMENT_SPEED; if SPEED_BOOST speed *= 2; if SLOWNESS speed *= 0.5] *)
Definition speedOf (ev : option ChaosEvent) : Q :=
  let speed := MOVEMENT_SPEED in
  let speed := if eventIs ev SPEED_BOOST then speed * 2 else speed in
  let speed := if eventIs ev SLOWNESS then speed * (1 # 2) else speed in
  speed.

(** [Math.max(0, Math.min(limit, v))] *)
Definition clamp (limit v : Q) : Q := Qmax 0 (Qmin limit v).

Definition movePlayer (speed : Q) (dx dy : Z) (p : Player) : Player :=
  mkPlayer (id p)
    (clamp (CANVAS_WIDTH - PLAYER_SIZE) (x p + inject_Z dx * speed))
    (clamp (CANVAS_HEIGHT - PLAYER_SIZE) (y p + inject_Z dy * speed))
    (score p) (skin p) (name p) (isHost p) (vx p) (vy p)
    (frozen p) (inverted p).

Definition setPlayers (ps : list (string * Player)) (s : GameState) :=
  mkGameState ps (presents s) (activeEvent s) (timeLeft s) (winnerId s).
Definition setPresents (prs : list Present) (s : GameState) :=
  mkGameState (players s) prs (activeEvent s) (timeLeft s) (winnerId s).
Definition setActiveEvent (ev : option ChaosEvent) (s : GameState) :=
  mkGameState (players s) (presents s) ev (timeLeft s) (winnerId s).
Definition setTimeLeft (t : Q) (s : GameState) :=
  mkGameState (players s) (presents s) (activeEvent s) t (winnerId s).
Definition setWinnerId (w : option string) (s : GameState) :=
  mkGameState (players s) (presents s) (activeEvent s) (timeLeft s) w.

(** "Host applies physics directly": only [state.players[myPlayerId]] moves. *)
Definition applyLocalInput (myPlayerId : string) (dx dy : Z)
    (state : GameState) : GameState :=
  match lookup myPlayerId (players state) with
  | Some p =>
      setPlayers
        (assign myPlayerId
           (movePlayer (speedOf (activeEvent state)) dx dy p) (players state))
        state
  | None => state
  end.

(** Section 1 as a whole. *)
Definition handleLocalInput (isHost : bool) (myPlayerId : string)
    (keys : string -> bool) (state : GameState) : GameState * list Effect :=
  let '(dx, dy) := localInput state myPlayerId keys in
  if negb (dx =? 0)%Z || negb (dy =? 0)%Z then
    if isHost then (applyLocalInput myPlayerId dx dy state, [])
    else (state, [SendToHost (INPUT dx dy)])
  else (state, []).

(** "Manage Event Timer" *)
Definition manageEventTimer (dt : Q) (state : GameState) : GameState :=
  match activeEvent state with
  | Some e =>
      if active e then
        let e' := mkChaosEvent (event_name e) (description e) (type e)
                    (duration e - dt) (active e) in
        if Qle_bool (duration e') 0 then setActiveEvent None state
        else setActiveEvent (Some e') state
      else state
  | None => state
  end.

(** The condition guarding [triggerGeminiEvent()]. *)
Definition shouldTrigger (now lastTrigger : Q) (state : GameState) : bool :=
  let timeSinceStart := 120 - timeLeft state in
  match activeEvent state with
  | Some _ => false
  | None =>
      (0 <? Qfloor timeSinceStart)%Z
      && (Z.rem (Qfloor timeSinceStart) 30 =? 0)%Z
      && negb (Qle_bool (now - lastTrigger) 5000)
  end.

(** The bounding-box test of the collision logic. *)
Definition hit (p : Player) (present : Present) : bool :=
  negb (Qle_bool (present_x present + PRESENT_SIZE) (x p))
  && negb (Qle_bool (x p + PLAYER_SIZE) (present_x present))
  && negb (Qle_bool (present_y present + PRESENT_SIZE) (y p))
  && negb (Qle_bool (y p + PLAYER_SIZE) (present_y present)).

Definition pointsOf (ev : option ChaosEvent) (present : Present) : Z :=
  let points := value present in
  if eventIs ev DOUBLE_POINTS then (points * 2)%Z else points.

Definition addScore (points : Z) (p : Player) : Player :=
  mkPlayer (id p) (x p) (y p) (score p + points)%Z (skin p) (name p)
    (isHost p) (vx p) (vy p) (frozen p) (inverted p).

(** [state.presents = state.presents.filter(present => ...)] for one player:
    the callback adds to [p.score] as it goes and drops what was hit. *)
Fixpoint collectPresents (ev : option ChaosEvent) (p : Player)
    (prs : list Present) : Player * list Present :=
  match prs with
  | [] => (p, [])
  | present :: rest =>
      if hit p present then
        collectPresents ev (addScore (pointsOf ev present) p) rest
      else
        let '(p', kept) := collectPresents ev p rest in
        (p', present :: kept)
  end.

(** [Object.values(state.players).forEach(p => ...)]: players in iteration
    order, each one filtering what the previous ones left. *)
Fixpoint collisionLogic (ev : option ChaosEvent)
    (ps : list (string * Player)) (prs : list Present)
  : list (string * Player) * list Present :=
  match ps with
  | [] => ([], prs)
  | (k, p) :: rest =>
      let '(p', prs') := collectPresents ev p prs in
      let '(rest', prs'') := collisionLogic ev rest prs' in
      ((k, p') :: rest', prs'')
  end.

(** "Spawn Presents" *)
Definition spawnPresents (fr : Frame) (state : GameState) : GameState :=
  if (Z.of_nat (List.length (presents state)) <? 10)%Z then
    if negb (Qle_bool (5 # 100) (random_spawn fr)) then
      setPresents
        (presents state ++
           [mkPresent (random_id fr)
              (random_x fr * (CANVAS_WIDTH - PRESENT_SIZE))
              (random_y fr * (CANVAS_HEIGHT - PRESENT_SIZE))
              (if negb (Qle_bool (random_value fr) (8 # 10)) then 5%Z else 1%Z)])
        state
    else state
  else state.

(** A stable sort by the comparator [(a, b) => b.score - a.score]: of two
    players with equal scores the one met first stays first. *)
Fixpoint insertByScore (a : Player) (sorted : list Player) : list Player :=
  match sorted with
  | [] => [a]
  | b :: rest =>
      if (score b - score a <=? 0)%Z then a :: b :: rest
      else b :: insertByScore a rest
  end.

Fixpoint sortByScore (l : list Player) : list Player :=
  match l with
  | [] => []
  | a :: rest => insertByScore a (sortByScore rest)
  end.

(** [Object.values(players).sort(...)[0]?.id || ''] *)
Definition getWinner (ps : list (string * Player)) : string :=
  match sortByScore (values ps) with
  | first :: _ => id first
  | [] => ""
  end.

(** [state.activeEvent?.field || null]: an absent event and an empty string
    both give [null]. *)
Definition orNull (f : ChaosEvent -> string) (ev : option ChaosEvent)
  : option string :=
  match ev with
  | Some e => if String.eqb (f e) "" then None else Some (f e)
  | None => None
  end.

(** "Broadcast State": returns the new [lastNetworkUpdate] and the effects. *)
Definition broadcastState (now : Q) (lv : LoopVars) (state : GameState)
  : LoopVars * list Effect :=
  if negb (Qle_bool (now - lastNetworkUpdate lv) 40) then
    (mkLoopVars (lastTime lv) now (lastEventTrigger lv),
     [Broadcast (GAME_UPDATE state);
      SetOverlay (orNull event_name (activeEvent state))
                 (orNull description (activeEvent state))
                 (timeLeft state)])
  else (lv, []).

(** Section 2 of the loop after the clock test ("HOST LOGIC"). *)
Definition hostLogic (fr : Frame) (dt : Q) (lv : LoopVars) (state : GameState)
  : LoopVars * GameState * list Effect :=
  let state := manageEventTimer dt state in
  let '(lv, eff_trigger) :=
    if shouldTrigger (time fr) (lastEventTrigger lv) state
    then (mkLoopVars (lastTime lv) (lastNetworkUpdate lv) (time fr),
          [TriggerGeminiEvent])
    else (lv, []) in
  let '(ps, prs) :=
    collisionLogic (activeEvent state) (players state) (presents state) in
  let state := setPresents prs (setPlayers ps state) in
  let state := spawnPresents fr state in
  let '(lv, eff_net) := broadcastState (time fr) lv state in
  (lv, state, eff_trigger ++ eff_net).

(** One call of the frame callback. *)
Definition gameLoop (isHost : bool) (myPlayerId : string) (fr : Frame)
    (lv : LoopVars) (state : GameState) : LoopVars * GameState * list Effect :=
  let dt := (time fr - lastTime lv) / 1000 in
  let lv := mkLoopVars (time fr) (lastNetworkUpdate lv) (lastEventTrigger lv) in
  let '(state, eff_input) :=
    handleLocalInput isHost myPlayerId (keysPressed fr) state in
  if isHost then
    let state := setTimeLeft (timeLeft state - dt) state in
    if Qle_bool (timeLeft state) 0 then
      (lv, state, eff_input ++ [OnGameOver (getWinner (players state))])
    else
      let '(lv, state, eff_host) := hostLogic fr dt lv state in
      (lv, state,
       eff_input ++ eff_host ++ [Render state; RequestAnimationFrame])
  else
    (lv, state, eff_input ++ [Render state; RequestAnimationFrame]).

(** The frame callback re-arms itself with [requestAnimationFrame] unless it
    returned early: a run over a list of frames stops at the first one that
    does not.  The result pairs each executed frame's time with its effects. *)
Definition rearms (effs : list Effect) : bool :=
  existsb (fun e => match e with RequestAnimationFrame => true | _ => false end)
    effs.

Fixpoint runLoop (isHost : bool) (myPlayerId : string) (frames : list Frame)
    (lv : LoopVars) (state : GameState) : list (Q * list Effect) :=
  match frames with
  | [] => []
  | fr :: rest =>
      let '(lv', state', effs) := gameLoop isHost myPlayerId fr lv state in
      (time fr, effs) ::
        (if rearms effs then runLoop isHost myPlayerId rest lv' state' else [])
  end.

Definition isSnapshot (e : Effect) : bool :=
  match e with Broadcast (GAME_UPDATE _) => true | _ => false end.

(** Times of the frames that broadcast a [GAME_UPDATE]. *)
Definition broadcastTimes (trace : list (Q * list Effect)) : list Q :=
  map fst (filter (fun te => existsb isSnapshot (snd te)) trace).

(** ** App.tsx (host side) *)

Module App.

Record State := mkState {
  phase : GamePhase;
  myName : string;
  mySkin : PlayerSkin;
  hostId : string;
  error : string;
  gameState : option GameState;
  myId : string;
  isHost : bool
}.

(** The [useState] initial values. *)
Definition initial : State := mkState MENU "" SANTA "" "" None "" false.

Definition setMyName (n : string) (a : State) : State :=
  mkState (phase a) n (mySkin a) (hostId a) (error a) (gameState a) (myId a)
    (isHost a).
Definition setMySkin (k : PlayerSkin) (a : State) : State :=
  mkState (phase a) (myName a) k (hostId a) (error a) (gameState a) (myId a)
    (isHost a).
Definition setPhase (ph : GamePhase) (a : State) : State :=
  mkState ph (myName a) (mySkin a) (hostId a) (error a) (gameState a) (myId a)
    (isHost a).
Definition setError (e : string) (a : State) : State :=
  mkState (phase a) (myName a) (mySkin a) (hostId a) e (gameState a) (myId a)
    (isHost a).
Definition setGameState (g : option GameState) (a : State) : State :=
  mkState (phase a) (myName a) (mySkin a) (hostId a) (error a) g (myId a)
    (isHost a).

(** [initHost]; [peerId] is what [peerService.initialize()] resolved to,
    [None] when it rejected. *)
Definition initHost (peerId : option string) (a : State) : State :=
  if String.eqb (myName a) "" then setError "Please enter your name!" a
  else
    match peerId with
    | Some id =>
        let initialPlayer :=
          mkPlayer id (CANVAS_WIDTH / 2) (CANVAS_HEIGHT / 2) 0%Z (mySkin a)
            (myName a) true 0 0 None None in
        let newState :=
          mkGameState [(id, initialPlayer)] [] None GAME_DURATION None in
        mkState LOBBY (myName a) (mySkin a) id (error a) (Some newState) id true
    | None =>
        setError
          "Failed to initialize PeerJS. Make sure you are connected to the internet."
          a
    end.

(** The listener [initHost] installs as [peerService.onMessage]; the two
    rationals are the [Math.random()] draws of the spawn position. *)
Definition hostOnMessage (random_x random_y : Q) (msg : NetworkMessage)
    (sourcePeerId : string) (a : State) : State * list Effect :=
  match msg with
  | JOIN_REQUEST name skin =>
      match gameState a with
      | None => (a, [])
      | Some prev =>
          let newPlayer :=
            mkPlayer sourcePeerId (random_x * CANVAS_WIDTH)
              (random_y * CANVAS_HEIGHT) 0%Z skin name false 0 0 None None in
          let nextState :=
            setPlayers (assign sourcePeerId newPlayer (players prev)) prev in
          (setGameState (Some nextState) a,
           [SendToPeer sourcePeerId (JOIN_ACCEPT nextState sourcePeerId)])
      end
  | INPUT _ _ => (a, [])      (* the branch holds comments only *)
  | _ => (a, [])
  end.

Definition startGame (a : State) : State * list Effect :=
  if isHost a then (setPhase PLAYING a, [Broadcast START_GAME]) else (a, []).

(** [handleTriggerGemini] from the point where [await generateChaosEvent()]
    has resolved to [event]. *)
Definition handleTriggerGemini (event : ChaosEvent) (a : State) : State :=
  if isHost a then
    setGameState
      (match gameState a with
       | None => None
       | Some prev => Some (setActiveEvent (Some event) prev)
       end) a
  else a.

Definition handleGameOver (winnerId : string) (a : State) : State :=
  setPhase GAME_OVER_PHASE
    (setGameState
       (match gameState a with
        | Some prev => Some (setWinnerId (Some winnerId) prev)
        | None => None
        end) a).

(** The props [GameCanvas] gets from [App]: the callbacks a frame invokes. *)
Definition dispatch (a : State) (e : Effect) : State :=
  match e with
  | OnGameOver w => handleGameOver w a
  | _ => a
  end.

(** One frame of the mounted [GameCanvas] ([phase === PLAYING && gameState]):
    the loop runs on the store, then the callbacks it invoked take effect. *)
Definition frame (fr : Frame) (lv : LoopVars) (a : State)
  : LoopVars * State * list Effect :=
  match phase a, gameState a with
  | PLAYING, Some s =>
      let '(lv', s', effs) := gameLoop (isHost a) (myId a) fr lv s in
      (lv', fold_left dispatch effs (setGameState (Some s') a), effs)
  | _, _ => (lv, a, [])
  end.

(** The match has ended once a winner is recorded. *)
Definition terminal (s : GameState) : bool :=
  match winnerId s with Some _ => true | None => false end.

(** [Math.random()] returns a number in [0, 1). *)
Definition isRandom (r : Q) : Prop := 0 <= r /\ r < 1.

(** States a hosting participant can be in. *)
Inductive reachable : State -> Prop :=
| reach_initial : reachable initial
| reach_name n a : reachable a -> reachable (setMyName n a)
| reach_skin k a : reachable a -> reachable (setMySkin k a)
| reach_initHost peerId a :
    reachable a -> phase a = MENU -> reachable (initHost peerId a)
| reach_message rx ry msg src a :
    reachable a -> isHost a = true -> isRandom rx -> isRandom ry ->
    reachable (fst (hostOnMessage rx ry msg src a))
| reach_start a :
    reachable a -> phase a = LOBBY -> reachable (fst (startGame a))
| reach_frame fr lv a :
    reachable a -> isRandom (random_spawn fr) -> isRandom (random_x fr) ->
    isRandom (random_y fr) -> isRandom (random_value fr) ->
    reachable (snd (fst (frame fr lv a)))
| reach_event ev a :
    reachable a -> reachable (handleTriggerGemini ev a).

End App.

(** ** services/geminiService.ts *)

Module Gemini.

(** What [JSON.parse] can return. *)
#[local] Set Warnings "-register-all".
Inductive json :=
| JNull
| JBool (b : bool)
| JNumber (q : Q)
| JString (s : string)
| JArray (items : list json)
| JObject (fields : list (string * json)).

(** The object [generateChaosEvent] returns at run time: the fields copied
    from parsed data are whatever JavaScript values the data held, [None]
    being [undefined]. *)
Record ChaosEventValue := mkEvent {
  name : option json;
  description : option json;
  type : option json;
  duration : option json;
  active : bool
}.

(** [data.k]: reading a property of [null] throws (outer [None]); any other
    parsed value answers, with [undefined] when it has no such field. *)
Definition getProp (data : json) (k : string) : option (option json) :=
  match data with
  | JNull => None
  | JObject fields => Some (lookup k fields)
  | _ => Some None
  end.

(** How the awaited [ai.models.generateContent] call ended. *)
Inductive Reply :=
| CallRejected                       (* the call threw or its promise rejected *)
| Responded (text : option string).  (* [response.text] *)

(** How an [async] function ends. *)
Inductive Completion (A : Type) :=
| Resolved (v : A)
| Rejected.
Arguments Resolved {A} v.
Arguments Rejected {A}.

Definition blizzard : ChaosEventValue :=
  mkEvent (Some (JString "Blizzard!"))
    (Some (JString "It's getting cold! (Fallback Event)"))
    (Some (JString "SLOWNESS")) (Some (JNumber 10)) true.

Definition grinch : ChaosEventValue :=
  mkEvent (Some (JString "Grinch's Trick"))
    (Some (JString "Something went wrong, but chaos continues!"))
    (Some (JString "REVERSE_CONTROLS")) (Some (JNumber 10)) true.

Section WithParser.

(** [JSON.parse]; [None] when it throws a [SyntaxError]. *)
Variable JSON_parse : string -> option json.

(** The body of the [try] block: [None] when something in it throws. *)
Definition tryBody (reply : Reply) : option ChaosEventValue :=
  match reply with
  | CallRejected => None
  | Responded text =>
      match text with
      | None => None                                 (* !undefined *)
      | Some t =>
          if String.eqb t "" then None               (* !"" *)
          else
            match JSON_parse t with
            | None => None
            | Some data =>
                match getProp data "name", getProp data "description",
                      getProp data "type", getProp data "duration" with
                | Some n, Some d, Some ty, Some du =>
                    Some (mkEvent n d ty du true)
                | _, _, _, _ => None
                end
            end
      end
  end.

(** [apiKey] is [process.env.API_KEY]; [getAiClient] gives [null] when it is
    undefined or empty. *)
Definition generateChaosEvent (apiKey : option string) (reply : Reply)
  : Completion ChaosEventValue :=
  match apiKey with
  | None => Resolved blizzard
  | Some key =>
      if String.eqb key "" then Resolved blizzard
      else
        match tryBody reply with
        | Some ev => Resolved ev
        | None => Resolved grinch                    (* catch (error) *)
        end
  end.

End WithParser.

Definition allowedTypes : list string :=
  ["SPEED_BOOST"; "SLOWNESS"; "FREEZE"; "REVERSE_CONTROLS"; "DOUBLE_POINTS";
   "NORMAL"].

Definition nonEmptyString (v : option json) : bool :=
  match v with
  | Some (JString s) => negb (String.eqb s "")
  | _ => false
  end.

Definition allowedType (v : option json) : bool :=
  match v with
  | Some (JString s) => existsb (String.eqb s) allowedTypes
  | _ => false
  end.

(** A valid event: non-empty name, a type of the enumeration, active. *)
Definition validEvent (ev : ChaosEventValue) : bool :=
  nonEmptyString (name ev) && allowedType (type ev) && active ev.

End Gemini.

(** ** Vocabulary of the statements *)

(** Total of the points a list of presents is worth under an event. *)
Definition sumPoints (ev : option ChaosEvent) (prs : list Present) : Z :=
  fold_right Z.add 0%Z (map (pointsOf ev) prs).

(** [q] is [p] up to its score. *)
Definition sameButScore (p q : Player) : Prop :=
  id q = id p /\ x q = x p /\ y q = y p /\ skin q = skin p /\
  name q = name p /\ isHost q = isHost p /\ vx q = vx p /\ vy q = vy p /\
  frozen q = frozen p /\ inverted q = inverted p.

(** Some player of the list overlaps the present. *)
Definition hitByAny (ps : list (string * Player)) (present : Present) : bool :=
  existsb (fun kp => hit (snd kp) present) ps.

(** Where a player stands. *)
Definition position (p : Player) : Q * Q := (x p, y p).

(** The messages the host loop and the session handlers can put on the wire
    are inputs, snapshots, join replies and the start signal. *)
Definition isSentKind (m : NetworkMessage) : Prop :=
  match m with
  | INPUT _ _ | GAME_UPDATE _ | JOIN_ACCEPT _ _ | START_GAME => True
  | JOIN_REQUEST _ _ | GAME_OVER _ => False
  end.

(** Sum of the scores of all players. *)
Definition totalScore (ps : list (string * Player)) : Z :=
  fold_right Z.add 0%Z (map (fun kp => score (snd kp)) ps).

(** Neither status flag of any player has been set. *)
Definition flagsUnset (ps : list (string * Player)) : Prop :=
  Forall (fun kp => frozen (snd kp) = None /\ inverted (snd kp) = None) ps.

(** The flags are unset in the game state of a session, if it has one. *)
Definition flagsUnsetIn (a : App.State) : Prop :=
  match App.gameState a with
  | Some s => flagsUnset (players s)
  | None => True
  end.

(** Each time of the list is more than 40ms after the one before it, the
    first one after [last]. *)
Fixpoint spaced (last : Q) (ts : list Q) : Prop :=
  match ts with
  | [] => True
  | t :: rest => 40 < t - last /\ spaced t rest
  end.

(** The network messages among a list of effects. *)
Definition sentMessages (effs : list Effect) : list NetworkMessage :=
  flat_map (fun e => match e with
                     | SendToHost m | SendToPeer _ m | Broadcast m => [m]
                     | _ => []
                     end) effs.

(** ** components/GameCanvas.tsx: leaderboard and the listener of a guest *)

(** [Object.values(players).sort((a, b) => b.score - a.score)] of the
    overlay. *)
Definition leaderboard (ps : list (string * Player)) : list Player :=
  sortByScore (values ps).

(** The [peerService.onMessage] a non-host [GameCanvas] installs; it works on
    [gameStateRef.current]. *)
Definition clientOnMessage (msg : NetworkMessage) (state : GameState)
  : GameState * list Effect :=
  match msg with
  | GAME_UPDATE payload =>
      (payload,
       [SetOverlay (orNull event_name (activeEvent payload))
                   (orNull description (activeEvent payload))
                   (timeLeft payload)])
  | GAME_OVER w => (state, [OnGameOver w])
  | _ => (state, [])
  end.

(** ** App.tsx (guest side) *)

Module Client.

Definition setMyId (i : string) (a : App.State) : App.State :=
  App.mkState (App.phase a) (App.myName a) (App.mySkin a) (App.hostId a)
    (App.error a) (App.gameState a) i (App.isHost a).
Definition setHostId (h : string) (a : App.State) : App.State :=
  App.mkState (App.phase a) (App.myName a) (App.mySkin a) h (App.error a)
    (App.gameState a) (App.myId a) (App.isHost a).

(** [joinGame]; [joinId] is the room id typed in, [peerId] what
    [peerService.initialize()] resolved to ([None] when it rejected) and
    [connected] whether [peerService.connectToHost] resolved. *)
Definition joinGame (joinId : string) (peerId : option string)
    (connected : bool) (a : App.State) : App.State * list Effect :=
  if String.eqb (App.myName a) "" then
    (App.setError "Please enter your name!" a, [])
  else if String.eqb joinId "" then
    (App.setError "Please enter a Room ID!" a, [])
  else
    match peerId with
    | None => (App.setError "Could not connect to host. Check ID." a, [])
    | Some id =>
        let a := setMyId id a in
        if connected then
          (App.setPhase LOBBY a,
           [SendToHost (JOIN_REQUEST (App.myName a) (App.mySkin a))])
        else (App.setError "Could not connect to host. Check ID." a, [])
    end.

(** The listener [joinGame] installs as [peerService.onMessage]. *)
Definition onMessage (joinId : string) (msg : NetworkMessage) (a : App.State)
  : App.State :=
  match msg with
  | JOIN_ACCEPT gameState _ => setHostId joinId (App.setGameState (Some gameState) a)
  | START_GAME => App.setPhase PLAYING a
  | GAME_OVER w => App.handleGameOver w a
  | _ => a
  end.

End Client.

(** ** services/peerService.ts *)

Module PeerService.

(** What the service reads of a PeerJS [DataConnection]. *)
Record DataConnection := mkConn {
  peer : string;
  open : bool
}.

Record State := mkService {
  hasPeer : bool;                             (* this.peer !== null *)
  connections : list DataConnection;
  hostConnection : option DataConnection;
  myId : string
}.

(** The class field initialisers. *)
Definition initial : State := mkService false [] None "".

(** [conn.send(msg)] calls, as pairs of the connection's peer and the
    message. *)
Definition Sent : Type := list (string * NetworkMessage).

(** The ['connection'] handler of [initialize]. *)
Definition onConnection (conn : DataConnection) (sv : State) : State :=
  mkService (hasPeer sv) (connections sv ++ [conn]) (hostConnection sv)
    (myId sv).

(** [connectToHost] once the connection opened; [None] is the rejection
    "Peer not initialized". *)
Definition connectToHost (conn : DataConnection) (sv : State) : option State :=
  if hasPeer sv then
    Some (mkService (hasPeer sv) (connections sv) (Some conn) (myId sv))
  else None.

(** The ['close'] handler [setupConnection] attaches to [conn]. *)
Definition onClose (conn : DataConnection) (sv : State) : State :=
  mkService (hasPeer sv)
    (filter (fun c => negb (String.eqb (peer c) (peer conn))) (connections sv))
    (match hostConnection sv with
     | Some h => if String.eqb (peer h) (peer conn) then None else Some h
     | None => None
     end)
    (myId sv).

Definition broadcast (msg : NetworkMessage) (sv : State) : Sent :=
  flat_map (fun conn => if open conn then [(peer conn, msg)] else [])
    (connections sv).

Definition sendToHost (msg : NetworkMessage) (sv : State) : Sent :=
  match hostConnection sv with
  | Some h => if open h then [(peer h, msg)] else []
  | None => []
  end.

Definition sendToPeer (peerId : string) (msg : NetworkMessage) (sv : State)
  : Sent :=
  match find (fun c => String.eqb (peer c) peerId) (connections sv) with
  | Some conn => if open conn then [(peer conn, msg)] else []
  | None => []
  end.

(** The fields [cleanup] assigns: [peer] and [connections]; the host
    connection is closed but the field keeps it. *)
Definition cleanup (sv : State) : State :=
  mkService false [] (hostConnection sv) (myId sv).

(** What the service hands to the connections for one effect of the game. *)
Definition deliver (sv : State) (e : Effect) : Sent :=
  match e with
  | Broadcast m => broadcast m sv
  | SendToPeer p m => sendToPeer p m sv
  | SendToHost m => sendToHost m sv
  | _ => []
  end.

End PeerService.

(** ** components/GameCanvas.tsx: the loop effect and its restarts *)

(** The variables the loop effect declares before the first frame, at time
    [now]: [lastTime = performance.now()], [lastNetworkUpdate = 0],
    [lastEventTrigger = 0]. *)
Definition startLoop (now : Q) : LoopVars := mkLoopVars now 0 0.

(** What happens to a hosting session whose [GameCanvas] is mounted: an
    animation frame, or, at time [now], the resolution of a fetched event.
    The latter sets the state of [App], which renders again and hands
    [GameCanvas] new [onGameOver] and [triggerGeminiEvent] closures; the loop
    effect lists both among its dependencies, so it is torn down and run
    again. *)
Inductive HostEvent :=
| AnimationFrame (fr : Frame)
| FetchResolved (ev : ChaosEvent) (now : Q).

(** [setGameState] is reached, with a state to copy, only on a host that has
    a game state. *)
Definition rerenders (a : App.State) : bool :=
  App.isHost a && match App.gameState a with Some _ => true | None => false end.

(** The frames of a hosting session with their effects, in order. *)
Fixpoint hostSession (events : list HostEvent) (lv : LoopVars) (a : App.State)
  : list (Q * list Effect) :=
  match events with
  | [] => []
  | AnimationFrame fr :: rest =>
      let '(lv', a', effs) := App.frame fr lv a in
      (time fr, effs) :: hostSession rest lv' a'
  | FetchResolved ev now :: rest =>
      hostSession rest (if rerenders a then startLoop now else lv)
        (App.handleTriggerGemini ev a)
  end.

(** Sum of the face values of a list of presents. *)
Definition sumValues (prs : list Present) : Z :=
  fold_right Z.add 0%Z (map value prs).

(** How many times its face value a collected present is worth. *)
Definition awardFactor (ev : option ChaosEvent) : Z :=
  if eventIs ev DOUBLE_POINTS then 2%Z else 1%Z.

(** ** Further vocabulary *)

(** The player stands inside the arena. *)
Definition inArena (p : Player) : Prop :=
  (0 <= x p /\ x p <= CANVAS_WIDTH - PLAYER_SIZE) /\
  (0 <= y p /\ y p <= CANVAS_HEIGHT - PLAYER_SIZE).

(** What a frame never touches of a player. *)
Definition card (p : Player) : string * string * PlayerSkin * bool :=
  (id p, name p, skin p, isHost p).

(** Points gained by each player between two versions of the player map. *)
Definition gains (before after : list (string * Player)) : list Z :=
  map (fun ba => (score (snd (snd ba)) - score (snd (fst ba)))%Z)
    (combine before after).

(** A present as the spawner makes them: worth 1 or 5, inside the arena. *)
Definition presentOk (present : Present) : Prop :=
  (value present = 1%Z \/ value present = 5%Z) /\
  (0 <= present_x present /\ present_x present <= CANVAS_WIDTH - PRESENT_SIZE) /\
  (0 <= present_y present /\ present_y present <= CANVAS_HEIGHT - PRESENT_SIZE).

Definition presentsOk (s : GameState) : Prop :=
  (List.length (presents s) <= 10)%nat /\ Forall presentOk (presents s).

Definition isTrigger (e : Effect) : bool :=
  match e with TriggerGeminiEvent => true | _ => false end.

(** Times of the frames that request a chaos event. *)
Definition triggerTimes (trace : list (Q * list Effect)) : list Q :=
  map fst (filter (fun te => existsb isTrigger (snd te)) trace).

(** Each time of the list is more than [gap] after the one before it, the
    first one after [last]. *)
Fixpoint apart (gap last : Q) (ts : list Q) : Prop :=
  match ts with
  | [] => True
  | t :: rest => gap < t - last /\ apart gap t rest
  end.

(** Every player is filed under its own id, and no id occurs twice. *)
Definition keysAreIds (ps : list (string * Player)) : Prop :=
  Forall (fun kp => id (snd kp) = fst kp) ps /\ NoDup (map fst ps).

(** Phase, winner and clock of a hosting session agree. *)
Definition sessionOk (a : App.State) : Prop :=
  match App.gameState a with
  | None => App.phase a = MENU
  | Some s =>
      App.phase a <> MENU /\
      (App.phase a = GAME_OVER_PHASE <-> winnerId s <> None) /\
      (winnerId s = None -> 0 < timeLeft s) /\
      (winnerId s <> None -> timeLeft s <= 0)
  end.

Definition isOnGameOver (e : Effect) : bool :=
  match e with OnGameOver _ => true | _ => false end.

(** Case analysis on every test a goal branches on. *)
Ltac split_on_tests :=
  repeat match goal with
         | |- context [if ?c then _ else _] => destruct c
         end; simpl.

(** ** Maps *)

Lemma lookup_assign_other {A} k k' (v : A) obj :
  k' <> k -> lookup k' (assign k v obj) = lookup k' obj.
Proof.
  intros Hne. induction obj as [|[k0 v0] rest IH]; simpl.
  - destruct (String.eqb k' k) eqn:E; auto.
    apply String.eqb_eq in E. contradiction.
  - destruct (String.eqb k k0) eqn:E; simpl.
    + apply String.eqb_eq in E. subst k0.
      destruct (String.eqb k' k) eqn:E'; auto.
      apply String.eqb_eq in E'. contradiction.
    + now rewrite IH.
Qed.

Lemma Forall_assign {A} (P : string * A -> Prop) k v obj :
  Forall P obj -> (forall k0, P (k0, v)) -> Forall P (assign k v obj).
Proof.
  intros Hall Hv. induction Hall as [|[k0 v0] rest H0 Hrest IH]; simpl.
  - constructor; auto.
  - destruct (String.eqb k k0); constructor; auto.
Qed.

(** ** Collision logic *)

(** What one player's pass over the presents does: it keeps the presents the
    player does not overlap and adds the worth of the others to the score. *)
Lemma collectPresents_spec ev prs : forall p,
  let r := collectPresents ev p prs in
  sameButScore p (fst r) /\
  score (fst r) = (score p + sumPoints ev (filter (hit p) prs))%Z /\
  snd r = filter (fun present => negb (hit p present)) prs.
Proof.
  induction prs as [|present rest IH]; intros p; simpl.
  - repeat split. unfold sumPoints. simpl. lia.
  - destruct (hit p present) eqn:Hhit; simpl.
    + destruct (IH (addScore (pointsOf ev present) p)) as (Hs & Hsc & Hk).
      split; [|split].
      * destruct Hs as (H1 & H2 & H3 & H4 & H5 & H6 & H7 & H8 & H9 & H10).
        repeat split; assumption.
      * rewrite Hsc. simpl. unfold sumPoints. simpl.
        replace (filter (hit (addScore (pointsOf ev present) p)) rest)
          with (filter (hit p) rest) by reflexivity.
        lia.
      * exact Hk.
    + destruct (IH p) as (Hs & Hsc & Hk).
      destruct (collectPresents ev p rest) as [p' kept]. simpl in *.
      repeat split; try apply Hs; auto. now rewrite Hk.
Qed.

Lemma filter_filter {A} (f g : A -> bool) l :
  filter f (filter g l) = filter (fun a => g a && f a) l.
Proof.
  induction l as [|a l IH]; simpl; auto.
  destruct (g a); simpl; [destruct (f a)|]; now rewrite IH.
Qed.

Lemma filter_ext_eq {A} (f g : A -> bool) l :
  (forall a, f a = g a) -> filter f l = filter g l.
Proof.
  intros H. induction l as [|a l IH]; simpl; auto. now rewrite H, IH.
Qed.

(** The presents that survive all players are those nobody overlaps. *)
Lemma collisionLogic_presents ev ps : forall prs,
  snd (collisionLogic ev ps prs)
  = filter (fun present => negb (hitByAny ps present)) prs.
Proof.
  induction ps as [|[k p] rest IH]; intros prs; simpl.
  - induction prs as [|a l IHl]; simpl; congruence.
  - destruct (collectPresents_spec ev prs p) as (_ & _ & Hk).
    destruct (collectPresents ev p prs) as [p' prs']. simpl in Hk.
    specialize (IH prs').
    destruct (collisionLogic ev rest prs') as [rest' prs'']. simpl in *.
    rewrite IH, Hk, filter_filter. apply filter_ext_eq.
    intros a. now rewrite negb_orb.
Qed.

(** The player met after the players [before] is awarded exactly the presents
    it overlaps that none of [before] overlaps. *)
Lemma collisionLogic_players ev before : forall prs k p after,
  exists before' p' after',
    fst (collisionLogic ev (before ++ (k, p) :: after) prs)
      = before' ++ (k, p') :: after' /\
    List.length before' = List.length before /\
    sameButScore p p' /\
    score p' =
      (score p +
       sumPoints ev
         (filter (fun present => negb (hitByAny before present) && hit p present)
            prs))%Z.
Proof.
  induction before as [|[k0 p0] before IH]; intros prs k p after; simpl.
  - destruct (collectPresents_spec ev prs p) as (Hs & Hsc & _).
    destruct (collectPresents ev p prs) as [p' prs']. simpl in *.
    destruct (collisionLogic ev after prs') as [after' prs''].
    exists [], p', after'. simpl. repeat split; try apply Hs.
    rewrite Hsc. f_equal.
  - destruct (collectPresents_spec ev prs p0) as (_ & _ & Hk).
    destruct (collectPresents ev p0 prs) as [p0' prs']. simpl in Hk.
    destruct (IH prs' k p after) as (b' & p' & a' & Heq & Hlen & Hs & Hsc).
    destruct (collisionLogic ev (before ++ (k, p) :: after) prs')
      as [rest' prs''].
    simpl in *. subst rest'.
    exists ((k0, p0') :: b'), p', a'. simpl.
    repeat split; try apply Hs; auto.
    rewrite Hsc, Hk, filter_filter. do 2 f_equal.
    apply filter_ext_eq. intros a.
    destruct (hit p0 a); simpl; auto.
Qed.

Lemma sumPoints_split ev (f g : Present -> bool) prs :
  (sumPoints ev (filter f prs)
   + sumPoints ev (filter g (filter (fun a => negb (f a)) prs)))%Z
  = sumPoints ev (filter (fun a => f a || g a) prs).
Proof.
  unfold sumPoints. induction prs as [|a l IH]; simpl; auto.
  destruct (f a); simpl; [|destruct (g a); simpl]; lia.
Qed.

(** Every removed present is paid out once: the scores grow in total by the
    worth of the presents that disappear. *)
Lemma collisionLogic_total ev ps : forall prs,
  totalScore (fst (collisionLogic ev ps prs))
  = (totalScore ps + sumPoints ev (filter (hitByAny ps) prs))%Z.
Proof.
  induction ps as [|[k p] rest IH]; intros prs; simpl.
  - replace (filter (hitByAny []) prs) with (@nil Present).
    + unfold sumPoints, totalScore. simpl. lia.
    + induction prs; simpl; auto.
  - destruct (collectPresents_spec ev prs p) as (_ & Hsc & Hk).
    destruct (collectPresents ev p prs) as [p' prs']. simpl in Hsc, Hk.
    specialize (IH prs').
    destruct (collisionLogic ev rest prs') as [rest' prs'']. simpl in *.
    unfold totalScore in *. simpl. rewrite IH, Hsc, Hk.
    pose proof (sumPoints_split ev (hit p) (hitByAny rest) prs) as Hsplit.
    unfold hitByAny in *. simpl.
    rewrite <- Hsplit.
    lia.
Qed.

Lemma manageEventTimer_players dt s :
  players (manageEventTimer dt s) = players s /\
  presents (manageEventTimer dt s) = presents s /\
  timeLeft (manageEventTimer dt s) = timeLeft s /\
  winnerId (manageEventTimer dt s) = winnerId s.
Proof.
  unfold manageEventTimer.
  destruct (activeEvent s) as [e|]; [destruct (active e)|]; auto.
  simpl. destruct (Qle_bool (duration e - dt) 0); auto.
Qed.

(** ** C7 *)

(** The points of a list of presents are their face values, once, or twice
    under DOUBLE_POINTS. *)
Lemma sumPoints_values ev prs :
  sumPoints ev prs = (awardFactor ev * sumValues prs)%Z.
Proof.
  unfold sumPoints, sumValues, awardFactor.
  induction prs as [|present rest IH]; cbn [map fold_right]; [lia|].
  rewrite IH. unfold pointsOf.
  destruct (eventIs ev DOUBLE_POINTS); lia.
Qed.

(** C7. Collision resolution removes a present as soon as some player's box
    overlaps it, so a present collected in a tick is not in the collection the
    next tick starts from (which holds the presents nobody overlapped, plus
    at most one freshly spawned present); the player [p] met after the players
    [before] in iteration order gains exactly the values of the presents it
    overlaps that none of [before] overlaps (twice the values under
    DOUBLE_POINTS), so of several players overlapping one present only the
    first is paid; and in total the scores grow by the values of the removed
    presents, each counted once (twice under DOUBLE_POINTS). *)
Theorem collision_awards_first_player_once :
  forall ev before k p after prs,
    let ps := before ++ (k, p) :: after in
    let r := collisionLogic ev ps prs in
    snd r = filter (fun present => negb (hitByAny ps present)) prs /\
    (forall present, hitByAny ps present = true -> ~ In present (snd r)) /\
    (exists before' p' after',
        fst r = before' ++ (k, p') :: after' /\
        List.length before' = List.length before /\
        sameButScore p p' /\
        score p' =
          (score p +
           awardFactor ev *
           sumValues
             (filter
                (fun present => negb (hitByAny before present) && hit p present)
                prs))%Z) /\
    totalScore (fst r)
      = (totalScore ps
         + awardFactor ev * sumValues (filter (hitByAny ps) prs))%Z /\
    (forall fr dt lv s,
        exists spawned,
          presents (snd (fst (hostLogic fr dt lv s)))
            = filter (fun present => negb (hitByAny (players s) present))
                (presents s) ++ spawned /\
          (spawned = [] \/
           exists fresh, spawned = [fresh] /\ present_id fresh = random_id fr)).
Proof.
  intros ev before k p after prs ps r.
  assert (Hprs : snd r = filter (fun present => negb (hitByAny ps present)) prs)
    by apply collisionLogic_presents.
  split; [exact Hprs|]. split; [|split; [|split]].
  - intros present Hhit Hin. rewrite Hprs in Hin.
    apply filter_In in Hin. destruct Hin as [_ Hneg].
    rewrite Hhit in Hneg. discriminate.
  - destruct (collisionLogic_players ev before prs k p after)
      as (b' & p' & a' & Hfst & Hlen & Hsame & Hsc).
    exists b', p', a'. repeat split; try apply Hsame; auto.
    now rewrite Hsc, sumPoints_values.
  - unfold r. now rewrite collisionLogic_total, sumPoints_values.
  - intros fr dt lv s. unfold hostLogic.
    destruct (manageEventTimer_players dt s) as (Hp & Hpr & _).
    set (s1 := manageEventTimer dt s) in *.
    pose proof (collisionLogic_presents (activeEvent s1) (players s1)
                  (presents s1)) as Hc.
    destruct (shouldTrigger (time fr) (lastEventTrigger lv) s1);
      destruct (collisionLogic (activeEvent s1) (players s1) (presents s1))
        as [ps' prs'];
      simpl in Hc; rewrite Hp, Hpr in Hc; subst prs';
      unfold spawnPresents, broadcastState; simpl;
      split_on_tests;
      first [ eexists; split; [reflexivity|right; eexists; split; reflexivity]
            | exists []; rewrite app_nil_r; split; [reflexivity|now left] ].
Qed.

Lemma collision_awards_first_player_once_witness :
  let ann := mkPlayer "host" 100 100 0%Z SANTA "Ann" true 0 0 None None in
  let bob := mkPlayer "guest" 110 90 2%Z ELF "Bob" false 0 0 None None in
  let gift := mkPresent "g1" 120 110 5%Z in
  let far := mkPresent "g2" 700 500 1%Z in
  let r := collisionLogic None [("host", ann); ("guest", bob)] [gift; far] in
  hit ann gift = true /\ hit bob gift = true /\
  snd r = [far] /\
  (exists p' rest, fst r = ("host", p') :: rest /\ score p' = 5%Z) /\
  totalScore (fst r) = 7%Z.
Proof.
  intros ann bob gift far r.
  destruct (collision_awards_first_player_once None [] "host" ann
              [("guest", bob)] [gift; far])
    as (Hprs & _ & (b' & p' & a' & Hfst & Hlen & _ & Hsc) & Htot & _).
  split; [reflexivity|]. split; [reflexivity|].
  split; [etransitivity; [exact Hprs|reflexivity]|]. split.
  - destruct b'; [|discriminate]. exists p', a'. split; [exact Hfst|].
    etransitivity; [exact Hsc|reflexivity].
  - etransitivity; [exact Htot|reflexivity].
Defined.

(** ** Local input on the host *)

Lemma handleLocalInput_host my keys s :
  snd (handleLocalInput true my keys s) = [] /\
  (fst (handleLocalInput true my keys s) = s \/
   exists p dx dy,
     lookup my (players s) = Some p /\
     localInput s my keys = (dx, dy) /\
     fst (handleLocalInput true my keys s)
       = setPlayers
           (assign my (movePlayer (speedOf (activeEvent s)) dx dy p)
              (players s)) s).
Proof.
  unfold handleLocalInput.
  destruct (localInput s my keys) as [dx dy] eqn:Hin.
  destruct (negb (dx =? 0)%Z || negb (dy =? 0)%Z); simpl; auto.
  split; auto. unfold applyLocalInput.
  destruct (lookup my (players s)) as [p|] eqn:Hl; auto.
  right. now exists p, dx, dy.
Qed.

Lemma handleLocalInput_host_fields my keys s :
  let s1 := fst (handleLocalInput true my keys s) in
  presents s1 = presents s /\ activeEvent s1 = activeEvent s /\
  timeLeft s1 = timeLeft s /\ winnerId s1 = winnerId s.
Proof.
  destruct (handleLocalInput_host my keys s) as [_ [H|(p & dx & dy & _ & _ & H)]];
    simpl; rewrite H; auto.
Qed.

Lemma map_assign {A B} (f : A -> B) k v v' (obj : list (string * A)) :
  lookup k obj = Some v -> f v' = f v ->
  map (fun kv => f (snd kv)) (assign k v' obj)
  = map (fun kv => f (snd kv)) obj.
Proof.
  intros Hl Hf. induction obj as [|[k0 v0] rest IH]; simpl in *.
  - discriminate.
  - destruct (String.eqb k k0); simpl.
    + injection Hl as ->. now rewrite Hf.
    + now rewrite IH.
Qed.

Lemma handleLocalInput_host_scores my keys s :
  map (fun kp => score (snd kp)) (players (fst (handleLocalInput true my keys s)))
  = map (fun kp => score (snd kp)) (players s).
Proof.
  destruct (handleLocalInput_host my keys s)
    as [_ [H|(p & dx & dy & Hl & _ & H)]]; rewrite H; auto.
  simpl. now apply map_assign with (v := p).
Qed.

(** ** The winner *)

(** The head of the sorted list is the first player, in the original order,
    whose score no other player exceeds. *)
Lemma sortByScore_head l :
  match sortByScore l with
  | [] => l = []
  | w :: _ =>
      exists l1 l2, l = l1 ++ w :: l2 /\
        Forall (fun q => (score q < score w)%Z) l1 /\
        Forall (fun q => (score q <= score w)%Z) l2
  end.
Proof.
  induction l as [|a rest IH]; simpl; auto.
  destruct (sortByScore rest) as [|w tl]; simpl.
  - subst rest. exists [], []. simpl. auto.
  - destruct IH as (l1 & l2 & Heq & H1 & H2).
    destruct (score w - score a <=? 0)%Z eqn:E.
    + apply Z.leb_le in E. exists [], rest. simpl. repeat split; auto.
      subst rest. apply Forall_app. split.
      * eapply Forall_impl; [|exact H1]. simpl. intros. lia.
      * constructor; [lia|]. eapply Forall_impl; [|exact H2]. simpl. intros. lia.
    + apply Z.leb_gt in E. exists (a :: l1), l2. subst rest. simpl.
      repeat split; auto. constructor; auto. lia.
Qed.

Lemma getWinner_first_max ps :
  ps <> [] ->
  exists l1 w l2,
    values ps = l1 ++ w :: l2 /\ getWinner ps = id w /\
    Forall (fun q => (score q < score w)%Z) l1 /\
    Forall (fun q => (score q <= score w)%Z) l2.
Proof.
  intros Hne. unfold getWinner.
  pose proof (sortByScore_head (values ps)) as H.
  destruct (sortByScore (values ps)) as [|w tl].
  - destruct ps; [contradiction|discriminate].
  - destruct H as (l1 & l2 & Heq & H1 & H2). now exists l1, w, l2.
Qed.

Lemma Player_eq_dec (p q : Player) : {p = q} + {p <> q}.
Proof.
  assert (HQ : forall a b : Q, {a = b} + {a <> b})
    by (decide equality; [apply Pos.eq_dec|apply Z.eq_dec]).
  assert (HO : forall a b : option bool, {a = b} + {a <> b})
    by (decide equality; apply Bool.bool_dec).
  decide equality;
    auto using String.string_dec, Z.eq_dec, Bool.bool_dec.
  decide equality.
Qed.

Lemma getWinner_strict_max ps p :
  In p (values ps) ->
  (forall q, In q (values ps) -> q <> p -> (score q < score p)%Z) ->
  getWinner ps = id p.
Proof.
  intros Hin Hmax.
  destruct (getWinner_first_max ps) as (l1 & w & l2 & Heq & Hw & H1 & H2).
  - intros ->. contradiction.
  - rewrite Hw. f_equal.
    assert (Hwin : In w (values ps)).
    { rewrite Heq. apply in_or_app. right. now left. }
    rewrite Heq in Hin. apply in_app_or in Hin.
    rewrite Forall_forall in H1, H2.
    destruct (Player_eq_dec w p) as [|Hne]; auto.
    specialize (Hmax w Hwin Hne).
    destruct Hin as [Hin|[Hin|Hin]]; auto.
    + specialize (H1 _ Hin). lia.
    + specialize (H2 _ Hin). lia.
Qed.

(** Two players standing on the same present: the first in iteration order
    takes it, doubled under DOUBLE_POINTS, and the second gets nothing. *)
Example collision_two_players_one_present :
  let ann := mkPlayer "host" 100 100 0%Z SANTA "Ann" true 0 0 None None in
  let bob := mkPlayer "guest" 110 90 2%Z ELF "Bob" false 0 0 None None in
  let gift := mkPresent "g1" 120 110 5%Z in
  let far := mkPresent "g2" 700 500 1%Z in
  let twice := mkChaosEvent "Jackpot" "x2" DOUBLE_POINTS 10 true in
  collisionLogic (Some twice) [("host", ann); ("guest", bob)] [gift; far]
  = ([("host", addScore 10 ann); ("guest", bob)], [far]).
Proof. reflexivity. Qed.

(** ** C5 *)

(** C5. On the host, a frame whose elapsed time [dt] brings the remaining
    time to zero or below leaves [timeLeft <= 0], reports game over and does
    nothing else: its only effect is the [onGameOver] call (no event request,
    no broadcast, no rendering, no next frame), presents, active event and
    scores are as before the frame, and [handleGameOver] records the winner
    and moves the session to the game-over phase.  The winner is the player
    whose score is strictly highest when there is one; in general it is the
    first player, in the iteration order of the player map, that no other
    player outscores, a function of the state alone. *)
Theorem time_expiry_ends_match :
  forall fr lv a s,
    App.phase a = PLAYING -> App.gameState a = Some s -> App.isHost a = true ->
    timeLeft s - (time fr - lastTime lv) / 1000 <= 0 ->
    let r := App.frame fr lv a in
    exists s',
      App.gameState (snd (fst r)) = Some s' /\
      timeLeft s' <= 0 /\
      App.terminal s' = true /\
      App.phase (snd (fst r)) = GAME_OVER_PHASE /\
      winnerId s' = Some (getWinner (players s')) /\
      snd r = [OnGameOver (getWinner (players s'))] /\
      presents s' = presents s /\
      activeEvent s' = activeEvent s /\
      map (fun kp => score (snd kp)) (players s')
        = map (fun kp => score (snd kp)) (players s) /\
      (forall p, In p (values (players s')) ->
         (forall q, In q (values (players s')) -> q <> p ->
            (score q < score p)%Z) ->
         getWinner (players s') = id p) /\
      (players s' <> [] ->
       exists l1 w l2,
         values (players s') = l1 ++ w :: l2 /\
         getWinner (players s') = id w /\
         Forall (fun q => (score q < score w)%Z) l1 /\
         Forall (fun q => (score q <= score w)%Z) l2).
Proof.
  intros fr lv a s Hph Hgs Hhost Hexp r.
  unfold r, App.frame. rewrite Hph, Hgs, Hhost. unfold gameLoop.
  destruct (handleLocalInput_host (App.myId a) (keysPressed fr) s) as [Heff _].
  pose proof (handleLocalInput_host_fields (App.myId a) (keysPressed fr) s)
    as (Hpr & Hev & Htl & Hw).
  pose proof (handleLocalInput_host_scores (App.myId a) (keysPressed fr) s)
    as Hsc.
  destruct (handleLocalInput true (App.myId a) (keysPressed fr) s)
    as [s1 eff_input].
  simpl in Heff, Hpr, Hev, Htl, Hw, Hsc. subst eff_input.
  cbn [timeLeft setTimeLeft]. rewrite Htl.
  assert (Hle : Qle_bool (timeLeft s - (time fr - lastTime lv) / 1000) 0 = true)
    by now apply Qle_bool_iff.
  rewrite Hle. simpl.
  eexists. split; [reflexivity|]. simpl.
  repeat split; auto.
  - intros p Hin Hmax. now apply getWinner_strict_max.
  - apply getWinner_first_max.
Qed.

Lemma time_expiry_ends_match_witness :
  let s := mkGameState
             [("host", mkPlayer "host" 400 300 3%Z SANTA "Ann" true 0 0 None None);
              ("guest", mkPlayer "guest" 100 100 7%Z ELF "Bob" false 0 0 None None)]
             [] None (16 # 1000) None in
  let a := App.mkState PLAYING "Ann" SANTA "host" "" (Some s) "host" true in
  let fr := mkFrame 1020 (fun _ => false) (1 # 2) "abc" 0 0 0 in
  let lv := mkLoopVars 1000 0 0 in
  exists s',
    App.gameState (snd (fst (App.frame fr lv a))) = Some s' /\
    timeLeft s' <= 0 /\ winnerId s' = Some "guest".
Proof.
  intros s a fr lv.
  destruct (time_expiry_ends_match fr lv a s) as (s' & Hgs & Htl & H).
  - reflexivity.
  - reflexivity.
  - reflexivity.
  - vm_compute. discriminate.
  - exists s'. split; [exact Hgs|]. split; [exact Htl|].
    vm_compute in Hgs. injection Hgs as <-. reflexivity.
Defined.

(** ** Snapshot cadence *)

Lemma handleLocalInput_no_snapshot isHost my keys s :
  existsb isSnapshot (snd (handleLocalInput isHost my keys s)) = false.
Proof.
  unfold handleLocalInput. destruct (localInput s my keys) as [dx dy].
  destruct (negb (dx =? 0)%Z || negb (dy =? 0)%Z); [destruct isHost|];
    reflexivity.
Qed.

(** A call of [hostLogic] either broadcasts, more than 40ms after the last
    broadcast, and remembers the time, or leaves [lastNetworkUpdate] alone. *)
Lemma hostLogic_snapshot fr dt lv s :
  let r := hostLogic fr dt lv s in
  (existsb isSnapshot (snd r) = true /\
   40 < time fr - lastNetworkUpdate lv /\
   lastNetworkUpdate (fst (fst r)) = time fr) \/
  (existsb isSnapshot (snd r) = false /\
   lastNetworkUpdate (fst (fst r)) = lastNetworkUpdate lv).
Proof.
  unfold hostLogic.
  destruct (shouldTrigger (time fr) (lastEventTrigger lv) (manageEventTimer dt s));
    destruct (collisionLogic _ _ _) as [ps prs];
    unfold broadcastState; cbn [lastNetworkUpdate];
    destruct (Qle_bool (time fr - lastNetworkUpdate lv) 40) eqn:E; simpl;
    try (right; split; reflexivity);
    left; repeat split;
    apply Qnot_le_lt; intros Hle; apply Qle_bool_iff in Hle; congruence.
Qed.

Lemma gameLoop_snapshot isHost my fr lv s :
  let r := gameLoop isHost my fr lv s in
  (existsb isSnapshot (snd r) = true /\
   40 < time fr - lastNetworkUpdate lv /\
   lastNetworkUpdate (fst (fst r)) = time fr) \/
  (existsb isSnapshot (snd r) = false /\
   lastNetworkUpdate (fst (fst r)) = lastNetworkUpdate lv).
Proof.
  unfold gameLoop.
  pose proof (handleLocalInput_no_snapshot isHost my (keysPressed fr) s) as Hin.
  destruct (handleLocalInput isHost my (keysPressed fr) s) as [s1 e1].
  simpl in Hin. destruct isHost.
  - destruct (Qle_bool _ 0).
    + right. simpl. rewrite existsb_app, Hin. auto.
    + set (lv1 := mkLoopVars (time fr) (lastNetworkUpdate lv) (lastEventTrigger lv)).
      pose proof (hostLogic_snapshot fr ((time fr - lastTime lv) / 1000) lv1
                    (setTimeLeft (timeLeft s1 - (time fr - lastTime lv) / 1000) s1))
        as H.
      destruct (hostLogic _ _ _ _) as [[lv' s'] eh]. simpl in *.
      rewrite !existsb_app, Hin. simpl. rewrite orb_false_r. exact H.
  - right. simpl. rewrite existsb_app, Hin. auto.
Qed.

Lemma runLoop_spaced isHost my frames : forall lv s,
  spaced (lastNetworkUpdate lv) (broadcastTimes (runLoop isHost my frames lv s)).
Proof.
  induction frames as [|fr rest IH]; intros lv s; simpl; auto.
  pose proof (gameLoop_snapshot isHost my fr lv s) as H.
  destruct (gameLoop isHost my fr lv s) as [[lv' s'] effs]. simpl in H.
  unfold broadcastTimes in *. simpl.
  destruct H as [(Hb & Hgap & Hlast)|(Hb & Hlast)]; rewrite Hb; simpl.
  - split; auto. destruct (rearms effs); simpl; auto.
    rewrite <- Hlast. apply IH.
  - destruct (rearms effs); simpl.
    + rewrite <- Hlast. apply IH.
    + exact I.
Qed.

Lemma spaced_consecutive l1 : forall last t1 t2 l2,
  spaced last (l1 ++ t1 :: t2 :: l2) -> 40 < t2 - t1.
Proof.
  induction l1 as [|t l1 IH]; intros last t1 t2 l2; simpl.
  - tauto.
  - intros [_ H]. eapply IH. exact H.
Qed.

(** ** C9 *)

(** Within one run of the loop effect, whatever the frame rate, two
    consecutive [GAME_UPDATE] broadcasts are emitted by frames whose times
    differ by more than 40ms. *)
Lemma snapshots_spaced_within_one_run :
  forall isHost my frames lv s l1 t1 t2 l2,
    broadcastTimes (runLoop isHost my frames lv s) = l1 ++ t1 :: t2 :: l2 ->
    40 < t2 - t1 /\ 40 <= t2 - t1.
Proof.
  intros isHost my frames lv s l1 t1 t2 l2 Heq.
  pose proof (runLoop_spaced isHost my frames lv s) as H.
  rewrite Heq in H. apply spaced_consecutive in H.
  split; [exact H|]. now apply Qlt_le_weak.
Qed.

Lemma snapshots_spaced_within_one_run_example :
  let s := mkGameState
             [("host", mkPlayer "host" 400 300 0%Z SANTA "Ann" true 0 0 None None)]
             [] None 120 None in
  let quiet t := mkFrame t (fun _ => false) (1 # 2) "abc" 0 0 0 in
  let frames := [quiet 50; quiet 60; quiet 80; quiet 100; quiet 130] in
  broadcastTimes (runLoop true "host" frames (mkLoopVars 30 0 0) s)
    = [50; 100] /\
  40 < 100 - 50 /\ 40 <= 100 - 50.
Proof.
  intros s quiet frames.
  assert (Heq : broadcastTimes (runLoop true "host" frames (mkLoopVars 30 0 0) s)
                = [] ++ 50 :: 100 :: []) by (vm_compute; reflexivity).
  split; [exact Heq|].
  exact (snapshots_spaced_within_one_run true "host" frames (mkLoopVars 30 0 0) s
           [] 50 100 [] Heq).
Defined.

(** C9, across a restart of the loop effect.  The host broadcasts in the
    frame at 1000ms; at 1005ms a fetched event resolves, [App] renders again
    and the loop effect starts anew with [lastNetworkUpdate = 0]; the next
    frame, at 1016ms, broadcasts again, 16ms after the previous broadcast.
    Without the restart the frame at 1016ms does not broadcast. *)
Theorem snapshot_throttle_lost_on_restart :
  let ann := mkPlayer "host" 400 300 0%Z SANTA "Ann" true 0 0 None None in
  let s := mkGameState [("host", ann)] [] None 100 None in
  let a := App.mkState PLAYING "Ann" SANTA "host" "" (Some s) "host" true in
  let quiet t := mkFrame t (fun _ => false) (1 # 2) "abc" 0 0 0 in
  let fog := mkChaosEvent "Blizzard!" "Cold" SLOWNESS 10 true in
  let lv := mkLoopVars 984 900 0 in
  broadcastTimes
    (hostSession
       [AnimationFrame (quiet 1000); FetchResolved fog 1005;
        AnimationFrame (quiet 1016)] lv a)
  = [1000; 1016] /\
  1016 - 1000 < 40 /\
  broadcastTimes
    (hostSession [AnimationFrame (quiet 1000); AnimationFrame (quiet 1016)] lv a)
  = [1000].
Proof.
  intros ann s a quiet fog lv.
  split; [vm_compute; reflexivity|]. split; [reflexivity|].
  vm_compute. reflexivity.
Qed.

(** ** Status flags *)

Lemma lookup_In {A} k (v : A) obj :
  lookup k obj = Some v -> exists k', In (k', v) obj.
Proof.
  induction obj as [|[k0 v0] rest IH]; simpl; [discriminate|].
  destruct (String.eqb k k0).
  - intros [= ->]. exists k0. now left.
  - intros H. destruct (IH H) as [k' Hin]. exists k'. now right.
Qed.

Lemma collisionLogic_flags ev ps : forall prs,
  flagsUnset ps -> flagsUnset (fst (collisionLogic ev ps prs)).
Proof.
  unfold flagsUnset.
  induction ps as [|[k p] rest IH]; intros prs Hall; simpl; auto.
  inversion Hall as [|? ? [Hf Hi] Hrest]; subst.
  destruct (collectPresents_spec ev prs p) as (Hs & _ & _).
  destruct (collectPresents ev p prs) as [p' prs'].
  specialize (IH prs' Hrest).
  destruct (collisionLogic ev rest prs') as [rest' prs'']. simpl in *.
  constructor; auto. simpl.
  destruct Hs as (_ & _ & _ & _ & _ & _ & _ & _ & Hfr & Hinv).
  rewrite Hfr, Hinv. auto.
Qed.

Lemma handleLocalInput_flags isHost my keys s :
  flagsUnset (players s) ->
  flagsUnset (players (fst (handleLocalInput isHost my keys s))).
Proof.
  intros Hall. destruct isHost.
  - destruct (handleLocalInput_host my keys s)
      as [_ [H|(p & dx & dy & Hl & _ & H)]]; rewrite H; auto.
    simpl. apply Forall_assign; auto.
    intros k0. simpl.
    destruct (lookup_In _ _ _ Hl) as [k' Hin].
    unfold flagsUnset in Hall. rewrite Forall_forall in Hall.
    exact (Hall _ Hin).
  - unfold handleLocalInput. destruct (localInput s my keys) as [dx dy].
    destruct (negb (dx =? 0)%Z || negb (dy =? 0)%Z); auto.
Qed.

Lemma spawnPresents_players fr s :
  players (spawnPresents fr s) = players s /\
  timeLeft (spawnPresents fr s) = timeLeft s.
Proof.
  unfold spawnPresents.
  destruct (Z.of_nat (List.length (presents s)) <? 10)%Z; auto.
  destruct (negb (Qle_bool (5 # 100) (random_spawn fr))); auto.
Qed.

Lemma spawnPresents_presents fr s1 s2 :
  presents s1 = presents s2 ->
  presents (spawnPresents fr s1) = presents (spawnPresents fr s2).
Proof.
  intros H. unfold spawnPresents. rewrite H.
  destruct (Z.of_nat (List.length (presents s2)) <? 10)%Z; auto.
  destruct (negb (Qle_bool (5 # 100) (random_spawn fr))); auto.
Qed.

(** Players, presents and clock after the host logic of a frame. *)
Lemma hostLogic_state fr dt lv s :
  let s' := snd (fst (hostLogic fr dt lv s)) in
  let c := collisionLogic (activeEvent (manageEventTimer dt s)) (players s)
             (presents s) in
  players s' = fst c /\
  presents s' = presents (spawnPresents fr (setPresents (snd c) s)) /\
  timeLeft s' = timeLeft s.
Proof.
  unfold hostLogic.
  destruct (manageEventTimer_players dt s) as (Hp & Hpr & Htl & _).
  rewrite Hp, Hpr.
  destruct (shouldTrigger _ _ _);
    destruct (collisionLogic _ (players s) (presents s)) as [ps prs];
    destruct (broadcastState _ _ _) eqn:Hb; simpl;
    (split; [apply spawnPresents_players|]);
    (split; [now apply spawnPresents_presents|]);
    destruct (spawnPresents_players fr
                (setPresents prs (setPlayers ps (manageEventTimer dt s))))
      as [_ ->]; exact Htl.
Qed.

Lemma gameLoop_flags isHost my fr lv s :
  flagsUnset (players s) ->
  flagsUnset (players (snd (fst (gameLoop isHost my fr lv s)))).
Proof.
  intros Hall. unfold gameLoop.
  pose proof (handleLocalInput_flags isHost my (keysPressed fr) s Hall) as H1.
  destruct (handleLocalInput isHost my (keysPressed fr) s) as [s1 e1].
  simpl in H1. destruct isHost; auto.
  destruct (Qle_bool _ 0); auto.
  match goal with
  | |- context [hostLogic ?f ?d ?l ?st] =>
      pose proof (hostLogic_state f d l st) as (Hp & _);
      destruct (hostLogic f d l st) as [[lv' s'] eh]
  end.
  simpl in *. rewrite Hp. now apply collisionLogic_flags.
Qed.

Lemma dispatch_players effs : forall a,
  option_map players (App.gameState (fold_left App.dispatch effs a))
  = option_map players (App.gameState a).
Proof.
  induction effs as [|e effs IH]; intros a; simpl; auto.
  rewrite IH. destruct e; simpl; auto.
  destruct (App.gameState a); reflexivity.
Qed.

Lemma reachable_flagsUnset a : App.reachable a -> flagsUnsetIn a.
Proof.
  unfold flagsUnsetIn, flagsUnset.
  induction 1 as [|n a _ IH|k a _ IH|peerId a _ IH Hph|rx ry msg src a _ IH Hh Hx Hy
                 |a _ IH Hph|fr lv a _ IH Hs Hx Hy Hv|ev a _ IH]; simpl.
  - exact I.
  - exact IH.
  - exact IH.
  - unfold App.initHost.
    destruct (String.eqb (App.myName a) ""); simpl; auto.
    destruct peerId; simpl; auto.
  - destruct msg; simpl; auto.
    destruct (App.gameState a) as [prev|] eqn:Hgs; simpl; rewrite ?Hgs; auto.
    apply Forall_assign; simpl; auto.
  - unfold App.startGame. destruct (App.isHost a); simpl; auto.
  - unfold App.frame.
    destruct (App.phase a); simpl; auto.
    destruct (App.gameState a) as [s|] eqn:Hgs; simpl; auto; [|now rewrite Hgs].
    pose proof (gameLoop_flags (App.isHost a) (App.myId a) fr lv s IH) as Hfl.
    destruct (gameLoop (App.isHost a) (App.myId a) fr lv s) as [[lv' s'] effs].
    simpl in *.
    pose proof (dispatch_players effs (App.setGameState (Some s') a)) as Hd.
    destruct (App.gameState (fold_left App.dispatch effs _)) as [s2|];
      simpl in Hd; auto.
    injection Hd as ->. exact Hfl.
  - unfold App.handleTriggerGemini.
    destruct (App.isHost a); simpl; auto.
    destruct (App.gameState a) eqn:Hgs; simpl; rewrite ?Hgs; auto.
Qed.

(** ** Events that change nothing for the players *)

Lemma collectPresents_ext ev1 ev2 prs : forall p,
  eventIs ev1 DOUBLE_POINTS = eventIs ev2 DOUBLE_POINTS ->
  collectPresents ev1 p prs = collectPresents ev2 p prs.
Proof.
  induction prs as [|present rest IH]; intros p H; simpl; auto.
  unfold pointsOf. rewrite H.
  destruct (hit p present).
  - apply IH. exact H.
  - now rewrite (IH p H).
Qed.

Lemma collisionLogic_ext ev1 ev2 ps : forall prs,
  eventIs ev1 DOUBLE_POINTS = eventIs ev2 DOUBLE_POINTS ->
  collisionLogic ev1 ps prs = collisionLogic ev2 ps prs.
Proof.
  induction ps as [|[k p] rest IH]; intros prs H; simpl; auto.
  rewrite (collectPresents_ext ev1 ev2 prs p H).
  destruct (collectPresents ev2 p prs) as [p' prs'].
  now rewrite (IH prs' H).
Qed.

(** The event timer never changes the type of the active event. *)
Lemma manageEventTimer_type dt s t :
  eventIs (activeEvent s) t = false ->
  eventIs (activeEvent (manageEventTimer dt s)) t = false.
Proof.
  unfold manageEventTimer.
  destruct (activeEvent s) as [e|] eqn:He; [destruct (active e)|];
    try (now rewrite He).
  simpl. destruct (Qle_bool (duration e - dt) 0); auto.
Qed.

Lemma handleLocalInput_freeze isHost my keys s ev :
  type ev = FREEZE ->
  handleLocalInput isHost my keys (setActiveEvent (Some ev) s)
  = (setActiveEvent (Some ev)
       (fst (handleLocalInput isHost my keys (setActiveEvent None s))),
     snd (handleLocalInput isHost my keys (setActiveEvent None s))).
Proof.
  destruct ev as [n d t du ac]. simpl. intros ->.
  unfold handleLocalInput, localInput, applyLocalInput, speedOf.
  generalize (keyVector keys). intros [dx dy]. simpl.
  destruct (lookup my (players s)) as [p|]; simpl.
  - destruct (truthy (frozen p)); simpl.
    + reflexivity.
    + destruct (negb (dx =? 0)%Z || negb (dy =? 0)%Z); destruct isHost;
        reflexivity.
  - reflexivity.
Qed.

Lemma handleLocalInput_activeEvent isHost my keys s :
  activeEvent (fst (handleLocalInput isHost my keys s)) = activeEvent s.
Proof.
  destruct isHost.
  - apply handleLocalInput_host_fields.
  - unfold handleLocalInput. destruct (localInput s my keys) as [dx dy].
    destruct (negb (dx =? 0)%Z || negb (dy =? 0)%Z); reflexivity.
Qed.

(** A frame under a FREEZE event leaves the players, the presents and the
    clock exactly as the same frame with no active event does. *)
Lemma gameLoop_freeze isHost my fr lv s ev :
  type ev = FREEZE ->
  let r1 := gameLoop isHost my fr lv (setActiveEvent (Some ev) s) in
  let r0 := gameLoop isHost my fr lv (setActiveEvent None s) in
  players (snd (fst r1)) = players (snd (fst r0)) /\
  presents (snd (fst r1)) = presents (snd (fst r0)) /\
  timeLeft (snd (fst r1)) = timeLeft (snd (fst r0)).
Proof.
  intros Hty. unfold gameLoop.
  rewrite (handleLocalInput_freeze isHost my (keysPressed fr) s ev Hty).
  pose proof (handleLocalInput_activeEvent isHost my (keysPressed fr)
                (setActiveEvent None s)) as Hev.
  destruct (handleLocalInput isHost my (keysPressed fr) (setActiveEvent None s))
    as [s0 e0].
  simpl in Hev. cbn [fst snd]. destruct isHost; [|simpl; auto].
  cbn [timeLeft setTimeLeft setActiveEvent].
  destruct (Qle_bool (timeLeft s0 - (time fr - lastTime lv) / 1000) 0);
    [simpl; auto|].
  repeat match goal with
         | |- context [hostLogic ?f ?d ?l ?st] =>
             let H := fresh "Hst" in
             pose proof (hostLogic_state f d l st) as H;
             destruct (hostLogic f d l st) as [[? ?] ?]
         end.
  simpl in *.
  destruct Hst as (Hp1 & Hpr1 & Ht1). destruct Hst0 as (Hp0 & Hpr0 & Ht0).
  rewrite Hp1, Hp0, Hpr1, Hpr0, Ht1, Ht0.
  match goal with
  | |- context [collisionLogic (activeEvent (manageEventTimer ?d ?sa)) _ _] =>
      match goal with
      | |- context [collisionLogic (activeEvent (manageEventTimer d ?sb)) _ _] =>
          lazymatch sa with
          | sb => fail
          | _ =>
              rewrite (collisionLogic_ext
                         (activeEvent (manageEventTimer d sa))
                         (activeEvent (manageEventTimer d sb)))
          end
      end
  end.
  - repeat split. apply spawnPresents_presents. reflexivity.
  - rewrite !manageEventTimer_type; auto.
    + simpl. now rewrite Hev.
    + simpl. now rewrite Hty.
Qed.

(** ** C10 *)

(** C10. No handler of the host and no frame ever sets a player's [frozen]
    or [inverted] field: in every reachable session state the two fields of
    every player are [undefined].  The FREEZE event type is read by the
    rendering overlay only, so a frame under an active FREEZE event gives
    every player the position and the score (and leaves the presents and the
    clock) that the same frame gives with no active event. *)
Theorem frozen_never_set_and_freeze_is_inert :
  (forall a s k p,
      App.reachable a -> App.gameState a = Some s -> In (k, p) (players s) ->
      frozen p = None /\ inverted p = None /\ truthy (frozen p) = false) /\
  (forall isHost my fr lv s ev,
      type ev = FREEZE ->
      let r1 := gameLoop isHost my fr lv (setActiveEvent (Some ev) s) in
      let r0 := gameLoop isHost my fr lv (setActiveEvent None s) in
      players (snd (fst r1)) = players (snd (fst r0)) /\
      presents (snd (fst r1)) = presents (snd (fst r0)) /\
      timeLeft (snd (fst r1)) = timeLeft (snd (fst r0))).
Proof.
  split.
  - intros a s k p Hr Hgs Hin.
    pose proof (reachable_flagsUnset a Hr) as H.
    unfold flagsUnsetIn in H. rewrite Hgs in H.
    unfold flagsUnset in H. rewrite Forall_forall in H.
    destruct (H _ Hin) as [Hf Hi]. simpl in Hf, Hi.
    rewrite Hf, Hi. auto.
  - intros. now apply gameLoop_freeze.
Qed.

Lemma frozen_never_set_and_freeze_is_inert_witness :
  let host :=
    mkPlayer "host" (CANVAS_WIDTH / 2) (CANVAS_HEIGHT / 2) 0%Z SANTA "Ann" true
      0 0 None None in
  let s := mkGameState [("host", host)] [] None GAME_DURATION None in
  let a := App.initHost (Some "host") (App.setMyName "Ann" App.initial) in
  let ice := mkChaosEvent "Deep Freeze" "Brr" FREEZE 10 true in
  let fr :=
    mkFrame 1016 (fun k => String.eqb k "ArrowRight") (1 # 2) "abc" 0 0 0 in
  let lv := mkLoopVars 1000 0 0 in
  (frozen host = None /\ inverted host = None /\ truthy (frozen host) = false) /\
  players (snd (fst (gameLoop true "host" fr lv (setActiveEvent (Some ice) s))))
  = players (snd (fst (gameLoop true "host" fr lv (setActiveEvent None s)))).
Proof.
  intros host s a ice fr lv. split.
  - apply (proj1 frozen_never_set_and_freeze_is_inert a s "host" host).
    + apply App.reach_initHost; [|reflexivity].
      apply App.reach_name. apply App.reach_initial.
    + reflexivity.
    + left. reflexivity.
  - apply (proj2 frozen_never_set_and_freeze_is_inert true "host" fr lv s ice).
    reflexivity.
Defined.

(** ** Reversal and speed *)

Lemma keyVector_range keys :
  (-1 <= fst (keyVector keys) <= 1)%Z /\ (-1 <= snd (keyVector keys) <= 1)%Z.
Proof.
  unfold keyVector.
  destruct (keys "ArrowUp" || keys "KeyW");
    destruct (keys "ArrowDown" || keys "KeyS");
    destruct (keys "ArrowLeft" || keys "KeyA");
    destruct (keys "ArrowRight" || keys "KeyD"); simpl; lia.
Qed.

Lemma clamp_inside limit v : 0 <= v -> v <= limit -> clamp limit v == v.
Proof.
  intros H0 Hl. unfold clamp.
  rewrite (Q.min_r limit v Hl). now apply Q.max_r.
Qed.

Lemma clamp_range limit v : 0 <= limit -> 0 <= clamp limit v <= limit.
Proof.
  intros Hl. unfold clamp. split.
  - apply Q.le_max_l.
  - apply Q.max_lub; [exact Hl|apply Q.le_min_l].
Qed.

(** The host's own move always ends inside the arena. *)
Lemma movePlayer_in_arena speed dx dy p :
  0 <= x (movePlayer speed dx dy p) <= CANVAS_WIDTH - PLAYER_SIZE /\
  0 <= y (movePlayer speed dx dy p) <= CANVAS_HEIGHT - PLAYER_SIZE.
Proof.
  split; apply clamp_range; vm_compute; discriminate.
Qed.

Lemma nonzero_vector dx dy :
  dx <> 0%Z \/ dy <> 0%Z -> negb (dx =? 0)%Z || negb (dy =? 0)%Z = true.
Proof.
  intros [H|H]; apply Z.eqb_neq in H; rewrite H; simpl; auto.
  apply orb_true_r.
Qed.

(** The host's player after section 1 of the loop, given the local vector. *)
Lemma handleLocalInput_moves my keys s p dx dy :
  lookup my (players s) = Some p ->
  localInput s my keys = (dx, dy) ->
  dx <> 0%Z \/ dy <> 0%Z ->
  players (fst (handleLocalInput true my keys s))
  = assign my (movePlayer (speedOf (activeEvent s)) dx dy p) (players s).
Proof.
  intros Hl Hin Hnz. unfold handleLocalInput. rewrite Hin.
  rewrite (nonzero_vector dx dy Hnz). unfold applyLocalInput.
  now rewrite Hl.
Qed.

(** ** C6 *)

(** C6, as the code has it.  The key vector has components in {-1, 0, 1}.
    Under an active REVERSE_CONTROLS event the host's unfrozen player is
    moved as the negated vector moves it, at the unmodified base speed; under
    any other event type the vector is applied as read, at the base speed
    doubled under SPEED_BOOST, halved under SLOWNESS and unmodified
    otherwise.  The state holds one event with one type, so reversal is never
    combined with a speed modifier.  The displacement is exact whenever the
    target lies inside the arena. *)
Theorem reverse_controls_negates_input :
  forall my keys s p ev,
    lookup my (players s) = Some p ->
    truthy (frozen p) = false ->
    activeEvent s = Some ev ->
    let dx := fst (keyVector keys) in
    let dy := snd (keyVector keys) in
    let sp := match type ev with
              | SPEED_BOOST => MOVEMENT_SPEED * 2
              | SLOWNESS => MOVEMENT_SPEED * (1 # 2)
              | _ => MOVEMENT_SPEED
              end in
    (-1 <= dx <= 1)%Z /\ (-1 <= dy <= 1)%Z /\
    speedOf (Some ev) = sp /\
    localInput (setActiveEvent None s) my keys = (dx, dy) /\
    (type ev = REVERSE_CONTROLS ->
     localInput s my keys = ((- dx)%Z, (- dy)%Z) /\
     sp = MOVEMENT_SPEED /\
     (dx <> 0%Z \/ dy <> 0%Z ->
      players (fst (handleLocalInput true my keys s))
      = assign my (movePlayer MOVEMENT_SPEED (- dx) (- dy) p) (players s))) /\
    (type ev <> REVERSE_CONTROLS ->
     localInput s my keys = (dx, dy) /\
     (dx <> 0%Z \/ dy <> 0%Z ->
      players (fst (handleLocalInput true my keys s))
      = assign my (movePlayer sp dx dy p) (players s))) /\
    (forall speed ddx ddy,
        0 <= x p + inject_Z ddx * speed <= CANVAS_WIDTH - PLAYER_SIZE ->
        0 <= y p + inject_Z ddy * speed <= CANVAS_HEIGHT - PLAYER_SIZE ->
        x (movePlayer speed ddx ddy p) - x p == inject_Z ddx * speed /\
        y (movePlayer speed ddx ddy p) - y p == inject_Z ddy * speed).
Proof.
  intros my keys s p ev Hl Hfr Hev dx dy sp.
  destruct (keyVector_range keys) as [Hdx Hdy].
  assert (Hsp : speedOf (Some ev) = sp).
  { unfold speedOf, sp, eventIs. destruct (type ev); reflexivity. }
  assert (Hkv : keyVector keys = (dx, dy)) by (unfold dx, dy; now destruct (keyVector keys)).
  split; [exact Hdx|]. split; [exact Hdy|]. split; [exact Hsp|].
  split; [|split; [|split]].
  - unfold localInput. cbn [players activeEvent setActiveEvent].
    now rewrite Hl, Hfr, Hkv.
  - intros Hty.
    assert (Hin : localInput s my keys = ((- dx)%Z, (- dy)%Z)).
    { unfold localInput. rewrite Hl, Hfr, Hkv, Hev. unfold eventIs.
      now rewrite Hty. }
    assert (Hbase : sp = MOVEMENT_SPEED) by (unfold sp; now rewrite Hty).
    repeat split; auto.
    intros Hnz.
    rewrite (handleLocalInput_moves my keys s p (- dx) (- dy) Hl Hin) by lia.
    now rewrite Hev, Hsp, Hbase.
  - intros Hty.
    assert (Hin : localInput s my keys = (dx, dy)).
    { unfold localInput. rewrite Hl, Hfr, Hkv, Hev. unfold eventIs.
      destruct (type ev); try reflexivity. now elim Hty. }
    split; auto. intros Hnz.
    rewrite (handleLocalInput_moves my keys s p dx dy Hl Hin Hnz).
    now rewrite Hev, Hsp.
  - intros speed ddx ddy [Hx0 Hx1] [Hy0 Hy1]. simpl.
    rewrite (clamp_inside _ _ Hx0 Hx1), (clamp_inside _ _ Hy0 Hy1).
    split; ring.
Qed.

Lemma reverse_controls_negates_input_witness :
  let host := mkPlayer "host" 400 300 0%Z SANTA "Ann" true 0 0 None None in
  let prank := mkChaosEvent "Eggnog" "Oops" REVERSE_CONTROLS 10 true in
  let s := mkGameState [("host", host)] [] (Some prank) 100 None in
  let right := fun k => String.eqb k "ArrowRight" in
  localInput s "host" right = ((-1)%Z, 0%Z) /\
  players (fst (handleLocalInput true "host" right s))
  = [("host", movePlayer MOVEMENT_SPEED (-1) 0 host)] /\
  x (movePlayer MOVEMENT_SPEED (-1) 0 host) - x host == - MOVEMENT_SPEED.
Proof.
  intros host prank s right.
  destruct (reverse_controls_negates_input "host" right s host prank
              eq_refl eq_refl eq_refl)
    as (_ & _ & _ & _ & Hrev & _ & Hexact).
  destruct (Hrev eq_refl) as (Hin & _ & Hmove).
  split; [exact Hin|]. split.
  - apply Hmove. left. vm_compute. discriminate.
  - destruct (Hexact MOVEMENT_SPEED (-1)%Z 0%Z) as [Hx _].
    + vm_compute. split; discriminate.
    + vm_compute. split; discriminate.
    + rewrite Hx. reflexivity.
Defined.

(** C6, counterexample.  With the right-arrow key held, i.e. input (1, 0),
    no active event whatsoever moves the host's player by
    (-2 * baseSpeed, 0): under REVERSE_CONTROLS the displacement is
    -baseSpeed, under SPEED_BOOST it is +2 * baseSpeed. *)
Lemma reverse_with_speed_boost_counterexample :
  let host := mkPlayer "host" 400 300 0%Z SANTA "Ann" true 0 0 None None in
  let right := fun k => String.eqb k "ArrowRight" in
  let moved ev :=
    lookup "host"
      (players
         (fst (handleLocalInput true "host" right
                 (mkGameState [("host", host)] [] (Some ev) 100 None)))) in
  ~ (exists ev p',
        moved ev = Some p' /\ x p' - x host == - (2 * MOVEMENT_SPEED)) /\
  (exists p', moved (mkChaosEvent "Eggnog" "Oops" REVERSE_CONTROLS 10 true)
              = Some p' /\ x p' - x host == - MOVEMENT_SPEED) /\
  (exists p', moved (mkChaosEvent "Rush" "Zoom" SPEED_BOOST 10 true)
              = Some p' /\ x p' - x host == 2 * MOVEMENT_SPEED).
Proof.
  intros host right moved. split; [|split].
  - intros (ev & p' & Hm & Hx).
    destruct ev as [n d t du ac]. unfold moved in Hm.
    destruct t; vm_compute in Hm; injection Hm as <-;
      vm_compute in Hx; discriminate.
  - eexists. split; [vm_compute; reflexivity|]. vm_compute. reflexivity.
  - eexists. split; [vm_compute; reflexivity|]. vm_compute. reflexivity.
Qed.

(** ** C3 *)

(** C3, as the code has it.  When the awaited fetch resolves on the host and
    a game state exists, the event is installed whatever the state of the
    match: the handler tests the host flag and the presence of a state, not
    the winner or the phase.  The state keeps its players, presents, clock and
    winner, and the session its phase.  Off the host, or without a game
    state, nothing changes. *)
Theorem fetched_event_installed_without_match_guard :
  forall ev a,
    (forall s,
        App.isHost a = true -> App.gameState a = Some s ->
        exists s',
          App.gameState (App.handleTriggerGemini ev a) = Some s' /\
          activeEvent s' = Some ev /\
          players s' = players s /\ presents s' = presents s /\
          timeLeft s' = timeLeft s /\ winnerId s' = winnerId s /\
          App.terminal s' = App.terminal s /\
          App.phase (App.handleTriggerGemini ev a) = App.phase a) /\
    (App.isHost a = false \/ App.gameState a = None ->
     App.handleTriggerGemini ev a = a).
Proof.
  intros ev a. split.
  - intros s Hh Hgs. unfold App.handleTriggerGemini. rewrite Hh, Hgs.
    eexists. split; [reflexivity|]. repeat split.
  - intros [Hh|Hgs]; unfold App.handleTriggerGemini.
    + now rewrite Hh.
    + destruct (App.isHost a); auto. rewrite Hgs.
      destruct a. simpl in *. now subst.
Qed.

Lemma fetched_event_installed_without_match_guard_witness :
  let host := mkPlayer "host" 400 300 4%Z SANTA "Ann" true 0 0 None None in
  let s := mkGameState [("host", host)] [] None (- (4 # 1000)) (Some "host") in
  let a := App.mkState GAME_OVER_PHASE "Ann" SANTA "host" "" (Some s) "host"
             true in
  let ev := mkChaosEvent "Blizzard!" "It's getting cold!" SLOWNESS 10 true in
  App.terminal s = true /\
  exists s', App.gameState (App.handleTriggerGemini ev a) = Some s' /\
             activeEvent s' = Some ev /\ winnerId s' = Some "host".
Proof.
  intros host s a ev. split; [reflexivity|].
  destruct (proj1 (fetched_event_installed_without_match_guard ev a) s
              eq_refl eq_refl)
    as (s' & Hgs & Hev & _ & _ & _ & Hw & _).
  exists s'. split; [exact Hgs|]. split; [exact Hev|]. exact Hw.
Defined.

(** C3, counterexample.  The host's match ends on the clock; the event
    fetched before that resolves afterwards: it is installed into the
    terminal state, which therefore changes. *)
Lemma late_fetch_changes_terminal_state_counterexample :
  let host := mkPlayer "host" 400 300 4%Z SANTA "Ann" true 0 0 None None in
  let s := mkGameState [("host", host)] [] None (16 # 1000) None in
  let playing := App.mkState PLAYING "Ann" SANTA "host" "" (Some s) "host"
                   true in
  let fr := mkFrame 1020 (fun _ => false) (1 # 2) "abc" 0 0 0 in
  let ended := snd (fst (App.frame fr (mkLoopVars 1000 0 0) playing)) in
  let ev := mkChaosEvent "Blizzard!" "It's getting cold!" SLOWNESS 10 true in
  App.phase ended = GAME_OVER_PHASE /\
  option_map App.terminal (App.gameState ended) = Some true /\
  option_map activeEvent (App.gameState ended) = Some None /\
  option_map activeEvent (App.gameState (App.handleTriggerGemini ev ended))
    = Some (Some ev) /\
  App.handleTriggerGemini ev ended <> ended.
Proof.
  intros host s playing fr ended ev.
  repeat split; try (vm_compute; reflexivity).
  intros Heq.
  assert (H : option_map activeEvent
                (App.gameState (App.handleTriggerGemini ev ended))
              = option_map activeEvent (App.gameState ended))
    by now rewrite Heq.
  vm_compute in H. discriminate.
Qed.

(** ** C8 *)

(** C8, at response texts that are JSON but no event.  With a credential,
    the texts [{}], [[]] and [42] parse, so nothing throws: the event returned
    has an undefined name and an undefined type (only [active = true]) and is
    not replaced by a fallback, whereas a missing credential, a failed call,
    an absent or empty text and a text that is not JSON each give one of the
    two built-in fallback events, which are valid. *)
Theorem parsed_malformed_response_not_replaced :
  let parse := fun t : string =>
                 if String.eqb t "{}" then Some (Gemini.JObject [])
                 else if String.eqb t "[]" then Some (Gemini.JArray [])
                 else if String.eqb t "42" then Some (Gemini.JNumber 42)
                 else None in
  let run := Gemini.generateChaosEvent parse (Some "key") in
  let hollow := Gemini.mkEvent None None None None true in
  run (Gemini.Responded (Some "{}")) = Gemini.Resolved hollow /\
  run (Gemini.Responded (Some "[]")) = Gemini.Resolved hollow /\
  run (Gemini.Responded (Some "42")) = Gemini.Resolved hollow /\
  Gemini.validEvent hollow = false /\
  Gemini.nonEmptyString (Gemini.name hollow) = false /\
  Gemini.allowedType (Gemini.type hollow) = false /\
  hollow <> Gemini.blizzard /\ hollow <> Gemini.grinch /\
  Gemini.generateChaosEvent parse None (Gemini.Responded (Some "{}"))
    = Gemini.Resolved Gemini.blizzard /\
  run Gemini.CallRejected = Gemini.Resolved Gemini.grinch /\
  run (Gemini.Responded None) = Gemini.Resolved Gemini.grinch /\
  run (Gemini.Responded (Some "")) = Gemini.Resolved Gemini.grinch /\
  run (Gemini.Responded (Some "<html>")) = Gemini.Resolved Gemini.grinch /\
  Gemini.validEvent Gemini.blizzard = true /\
  Gemini.validEvent Gemini.grinch = true.
Proof.
  intros parse run hollow.
  repeat split; try reflexivity; discriminate.
Qed.

(** A response that parses to an object is not a failure for the code: its
    fields are copied as they are, present or not. *)
Remark generateChaosEvent_copies_parsed_object :
  forall JSON_parse key t fields,
    key <> "" -> t <> "" -> JSON_parse t = Some (Gemini.JObject fields) ->
    Gemini.generateChaosEvent JSON_parse (Some key) (Gemini.Responded (Some t))
    = Gemini.Resolved
        (Gemini.mkEvent (lookup "name" fields) (lookup "description" fields)
           (lookup "type" fields) (lookup "duration" fields) true).
Proof.
  intros parse key t fields Hk Ht Hp. unfold Gemini.generateChaosEvent.
  apply String.eqb_neq in Hk. apply String.eqb_neq in Ht.
  rewrite Hk. simpl. now rewrite Ht, Hp.
Qed.


(** ** Players other than the local one *)

Lemma collisionLogic_lookup ev k ps : forall prs,
  option_map position (lookup k (fst (collisionLogic ev ps prs)))
  = option_map position (lookup k ps).
Proof.
  induction ps as [|[k0 p0] rest IH]; intros prs; simpl; auto.
  destruct (collectPresents_spec ev prs p0) as ((_ & Hx & Hy & _) & _ & _).
  destruct (collectPresents ev p0 prs) as [p0' prs'].
  specialize (IH prs').
  destruct (collisionLogic ev rest prs') as [rest' prs'']. simpl in *.
  destruct (String.eqb k k0); auto.
  simpl. unfold position. now rewrite Hx, Hy.
Qed.

(** A host frame moves nobody but the host's own player. *)
Lemma gameLoop_moves_only_local_player my k fr lv s :
  k <> my ->
  option_map position
    (lookup k (players (snd (fst (gameLoop true my fr lv s)))))
  = option_map position (lookup k (players s)).
Proof.
  intros Hne. unfold gameLoop.
  assert (H1 : lookup k (players (fst (handleLocalInput true my (keysPressed fr) s)))
               = lookup k (players s)).
  { destruct (handleLocalInput_host my (keysPressed fr) s)
      as [_ [H|(p & dx & dy & _ & _ & H)]]; rewrite H; auto.
    simpl. now apply lookup_assign_other. }
  destruct (handleLocalInput true my (keysPressed fr) s) as [s1 e1].
  simpl in H1. destruct (Qle_bool _ 0); simpl; [now rewrite H1|].
  match goal with
  | |- context [hostLogic ?f ?d ?l ?st] =>
      pose proof (hostLogic_state f d l st) as (Hp & _);
      destruct (hostLogic f d l st) as [[lv' s'] eh]
  end.
  simpl in *. rewrite Hp, collisionLogic_lookup. now rewrite H1.
Qed.

(** The frame loop sends nothing but inputs and snapshots. *)
Lemma gameLoop_messages isHost my fr lv s :
  Forall isSentKind (sentMessages (snd (gameLoop isHost my fr lv s))).
Proof.
  unfold gameLoop, handleLocalInput, hostLogic, broadcastState.
  destruct (localInput s my (keysPressed fr)) as [dx dy].
  destruct (negb (dx =? 0)%Z || negb (dy =? 0)%Z); destruct isHost;
    repeat match goal with
           | |- context [if ?c then _ else _] => destruct c
           | |- context [collisionLogic ?e ?a ?b] =>
               destruct (collisionLogic e a b)
           end; simpl; repeat constructor.
Qed.

(** ** C1 *)

(** C1, on a session of a host and one guest that has started.  An [INPUT]
    message from the guest, whatever its vector, changes nothing on the host
    and is answered by nothing; and whatever the frame (clock, keys, random
    draws), the guest stands after it where it stood before. *)
Theorem remote_input_never_integrated :
  let lobby := App.initHost (Some "host") (App.setMyName "Ann" App.initial) in
  let joined :=
    fst (App.hostOnMessage (1 # 4) (1 # 2) (JOIN_REQUEST "Bob" ELF) "guest"
           lobby) in
  let started := fst (App.startGame joined) in
  forall dx dy rx ry fr lv,
    App.hostOnMessage rx ry (INPUT dx dy) "guest" started = (started, []) /\
    exists s g s',
      App.gameState started = Some s /\
      lookup "guest" (players s) = Some g /\
      x g == 200 /\ y g == 300 /\
      App.gameState (snd (fst (App.frame fr lv started))) = Some s' /\
      option_map position (lookup "guest" (players s')) = Some (position g).
Proof.
  intros lobby joined started dx dy rx ry fr lv. split; [reflexivity|].
  assert (Hst : exists s g,
             App.gameState started = Some s /\
             lookup "guest" (players s) = Some g /\
             (x g == 200 /\ y g == 300) /\ App.phase started = PLAYING /\
             App.isHost started = true /\ App.myId started = "host").
  { eexists. eexists. repeat split; vm_compute; reflexivity. }
  destruct Hst as (s & g & Hgs & Hl & Hpos & Hph & Hh & Hid).
  pose proof (gameLoop_moves_only_local_player "host" "guest" fr lv s) as Hmove.
  unfold App.frame. rewrite Hph, Hgs, Hh, Hid.
  destruct (gameLoop true "host" fr lv s) as [[lv' s1] effs]. simpl in Hmove.
  pose proof (dispatch_players effs (App.setGameState (Some s1) started)) as Hd.
  simpl in Hd.
  destruct (App.gameState (fold_left App.dispatch effs _)) as [s'|] eqn:Hs';
    [|discriminate].
  injection Hd as Hd.
  exists s, g, s'.
  split; [reflexivity|]. split; [exact Hl|].
  split; [apply Hpos|]. split; [apply Hpos|].
  split; [exact Hs'|].
  rewrite Hd, Hmove; [|discriminate]. now rewrite Hl.
Qed.

(** ** C2 *)

(** C2, at the expiry of the clock on a host with one guest.  The frame
    reports the winner to the session ([onGameOver]), which records it and
    shows the game-over screen; no message at all is sent to the guest.  In
    general every message a frame or a handler of the host sends is an input,
    a snapshot, a join reply or the start signal, never [GAME_OVER]. *)
Theorem game_over_never_sent :
  let host := mkPlayer "host" 400 300 3%Z SANTA "Ann" true 0 0 None None in
  let guest := mkPlayer "guest" 100 100 7%Z ELF "Bob" false 0 0 None None in
  let s := mkGameState [("host", host); ("guest", guest)] [] None (16 # 1000)
             None in
  let a := App.mkState PLAYING "Ann" SANTA "host" "" (Some s) "host" true in
  let fr := mkFrame 1020 (fun _ => false) (1 # 2) "abc" 0 0 0 in
  let r := App.frame fr (mkLoopVars 1000 0 0) a in
  snd r = [OnGameOver "guest"] /\
  sentMessages (snd r) = [] /\
  App.phase (snd (fst r)) = GAME_OVER_PHASE /\
  option_map winnerId (App.gameState (snd (fst r))) = Some (Some "guest") /\
  (forall isHost my fr' lv' s',
      Forall isSentKind (sentMessages (snd (gameLoop isHost my fr' lv' s')))) /\
  (forall rx ry msg src a',
      Forall isSentKind
        (sentMessages (snd (App.hostOnMessage rx ry msg src a')))) /\
  (forall a', Forall isSentKind (sentMessages (snd (App.startGame a')))).
Proof.
  intros host guest s a fr r.
  split; [vm_compute; reflexivity|]. split; [vm_compute; reflexivity|].
  split; [vm_compute; reflexivity|]. split; [vm_compute; reflexivity|].
  split; [|split].
  - intros. apply gameLoop_messages.
  - intros rx ry msg src a'. destruct msg; simpl; try constructor.
    destruct (App.gameState a'); simpl; repeat constructor.
  - intros a'. unfold App.startGame.
    destruct (App.isHost a'); simpl; repeat constructor.
Qed.

(** ** C4 *)

(** C4, at a join whose random draws are 0.99.  The joining player is placed
    at (792, 594), outside [0, 760] x [0, 560], in a reachable state of the
    host; the host's own moves, by contrast, always end inside the arena. *)
Theorem joined_player_spawns_outside_arena :
  (exists a s p,
      App.reachable a /\ App.gameState a = Some s /\
      lookup "guest" (players s) = Some p /\
      CANVAS_WIDTH - PLAYER_SIZE < x p /\
      CANVAS_HEIGHT - PLAYER_SIZE < y p) /\
  (forall speed dx dy p,
      0 <= x (movePlayer speed dx dy p) <= CANVAS_WIDTH - PLAYER_SIZE /\
      0 <= y (movePlayer speed dx dy p) <= CANVAS_HEIGHT - PLAYER_SIZE).
Proof.
  split; [|apply movePlayer_in_arena].
  exists (fst (App.hostOnMessage (99 # 100) (99 # 100) (JOIN_REQUEST "Bob" ELF)
                 "guest"
                 (App.initHost (Some "host")
                    (App.setMyName "Ann" App.initial)))).
  eexists. eexists. split; [|split; [|split; [|split]]].
  - apply App.reach_message.
    + apply App.reach_initHost; [|reflexivity].
      apply App.reach_name. apply App.reach_initial.
    + reflexivity.
    + split; vm_compute; [discriminate|reflexivity].
    + split; vm_compute; [discriminate|reflexivity].
  - reflexivity.
  - reflexivity.
  - vm_compute. reflexivity.
  - vm_compute. reflexivity.
Qed.

(** * Further properties of the frame loop *)

(** ** The local vector *)

Lemma localInput_range s my keys :
  (-1 <= fst (localInput s my keys) <= 1)%Z /\
  (-1 <= snd (localInput s my keys) <= 1)%Z.
Proof.
  unfold localInput. pose proof (keyVector_range keys) as Hr.
  destruct (lookup my (players s)) as [p|]; [|simpl; lia].
  destruct (truthy (frozen p)); [simpl; lia|].
  destruct (keyVector keys) as [dx dy]. simpl in Hr.
  destruct (eventIs (activeEvent s) REVERSE_CONTROLS); simpl; lia.
Qed.

(** X1. A frame of a guest never changes the game state it renders and never
    broadcasts: it advances [lastTime], sends the host one [INPUT] message
    carrying the local vector (components in {-1, 0, 1}) exactly when that
    vector is not (0, 0), renders and re-arms. *)
Theorem client_frame_is_passive :
  forall my fr lv s,
    let r := gameLoop false my fr lv s in
    let v := localInput s my (keysPressed fr) in
    snd (fst r) = s /\
    fst (fst r)
      = mkLoopVars (time fr) (lastNetworkUpdate lv) (lastEventTrigger lv) /\
    (-1 <= fst v <= 1)%Z /\ (-1 <= snd v <= 1)%Z /\
    snd r
      = (if (fst v =? 0)%Z && (snd v =? 0)%Z then []
         else [SendToHost (INPUT (fst v) (snd v))])
        ++ [Render s; RequestAnimationFrame].
Proof.
  intros my fr lv s r v.
  destruct (localInput_range s my (keysPressed fr)) as [Hx Hy].
  unfold r, v, gameLoop, handleLocalInput in *.
  destruct (localInput s my (keysPressed fr)) as [dx dy]. simpl in *.
  destruct (dx =? 0)%Z; destruct (dy =? 0)%Z; simpl; auto.
Qed.

(** ** Positions across a frame *)

Lemma lookup_assign_eq {A} k (v : A) obj :
  lookup k (assign k v obj) = Some v.
Proof.
  induction obj as [|[k' v'] rest IH]; simpl.
  - now rewrite String.eqb_refl.
  - destruct (String.eqb k k') eqn:E; simpl; rewrite E; auto.
Qed.

(** After section 1 of the loop nobody moves any more in the frame. *)
Lemma gameLoop_positions isHost my fr lv s k :
  option_map position
    (lookup k (players (snd (fst (gameLoop isHost my fr lv s)))))
  = option_map position
      (lookup k (players (fst (handleLocalInput isHost my (keysPressed fr) s)))).
Proof.
  unfold gameLoop.
  destruct (handleLocalInput isHost my (keysPressed fr) s) as [s1 e1].
  simpl. destruct isHost; [|reflexivity].
  destruct (Qle_bool _ 0); [reflexivity|].
  match goal with
  | |- context [hostLogic ?f ?d ?l ?st] =>
      pose proof (hostLogic_state f d l st) as (Hp & _);
      destruct (hostLogic f d l st) as [[lv' s'] eh]
  end.
  simpl in *. rewrite Hp. apply collisionLogic_lookup.
Qed.

Lemma inArena_position p q : position q = position p -> inArena p -> inArena q.
Proof.
  unfold position, inArena. intros [= Hx Hy]. now rewrite Hx, Hy.
Qed.

(** X2. A host frame keeps inside the arena every player that was inside:
    the local player is either left where it is or moved to a clamped
    position, and nobody else moves. *)
Theorem host_frame_keeps_players_in_arena :
  forall my fr lv s k p,
    lookup k (players s) = Some p -> inArena p ->
    exists p',
      lookup k (players (snd (fst (gameLoop true my fr lv s)))) = Some p' /\
      inArena p'.
Proof.
  intros my fr lv s k p Hl Hin.
  pose proof (gameLoop_positions true my fr lv s k) as Hpos.
  assert (H1 : exists p1,
             lookup k (players (fst (handleLocalInput true my (keysPressed fr) s)))
             = Some p1 /\ inArena p1).
  { destruct (handleLocalInput_host my (keysPressed fr) s)
      as [_ [H|(p0 & dx & dy & Hl0 & _ & H)]]; rewrite H.
    - now exists p.
    - simpl. destruct (String.eqb k my) eqn:E.
      + apply String.eqb_eq in E. subst k. rewrite lookup_assign_eq.
        eexists. split; [reflexivity|]. apply movePlayer_in_arena.
      + apply String.eqb_neq in E. rewrite lookup_assign_other by exact E.
        now exists p. }
  destruct H1 as (p1 & Hl1 & Hin1). rewrite Hl1 in Hpos.
  destruct (lookup k (players (snd (fst (gameLoop true my fr lv s)))))
    as [p'|]; [|discriminate].
  exists p'. split; [reflexivity|].
  simpl in Hpos. injection Hpos as Hx Hy.
  apply (inArena_position p1); [|exact Hin1].
  unfold position. now rewrite Hx, Hy.
Qed.

Lemma host_frame_keeps_players_in_arena_witness :
  let host := mkPlayer "host" 758 300 0%Z SANTA "Ann" true 0 0 None None in
  let s := mkGameState [("host", host)] [] None 100 None in
  let fr :=
    mkFrame 1016 (fun k => String.eqb k "ArrowRight") (1 # 2) "abc" 0 0 0 in
  inArena host /\
  exists p',
    lookup "host"
      (players (snd (fst (gameLoop true "host" fr (mkLoopVars 1000 0 0) s))))
    = Some p' /\ inArena p' /\ x p' == 760.
Proof.
  intros host s fr.
  assert (Hin : inArena host) by (vm_compute; intuition discriminate).
  split; [exact Hin|].
  destruct (host_frame_keeps_players_in_arena "host" fr (mkLoopVars 1000 0 0) s
              "host" host eq_refl Hin) as (p' & Hl & Hp').
  exists p'. split; [exact Hl|]. split; [exact Hp'|].
  vm_compute in Hl. injection Hl as <-. reflexivity.
Defined.

(** X3. A player that is frozen, or a local id that is not in the player map
    (a guest before its join is known), makes the keyboard irrelevant: no
    frame, host or guest, moves anybody, and a guest sends nothing. *)
Theorem frozen_or_absent_local_player_ignores_keys :
  forall isHost my fr lv s,
    (lookup my (players s) = None \/
     exists p, lookup my (players s) = Some p /\ truthy (frozen p) = true) ->
    let r := gameLoop isHost my fr lv s in
    localInput s my (keysPressed fr) = (0%Z, 0%Z) /\
    (forall k,
        option_map position (lookup k (players (snd (fst r))))
        = option_map position (lookup k (players s))) /\
    (isHost = false -> sentMessages (snd r) = []).
Proof.
  intros isHost my fr lv s H r.
  assert (Hin : localInput s my (keysPressed fr) = (0%Z, 0%Z)).
  { unfold localInput. destruct H as [H|(p & H & Hf)]; rewrite H; auto.
    now rewrite Hf. }
  assert (Hh : handleLocalInput isHost my (keysPressed fr) s = (s, [])).
  { unfold handleLocalInput. now rewrite Hin. }
  split; [exact Hin|]. split.
  - intros k. unfold r. rewrite gameLoop_positions. now rewrite Hh.
  - intros ->. unfold r, gameLoop. rewrite Hh. reflexivity.
Qed.

Lemma frozen_or_absent_local_player_ignores_keys_witness :
  let ann := mkPlayer "host" 400 300 0%Z SANTA "Ann" true 0 0 (Some true) None in
  let s := mkGameState [("host", ann)] [] None 100 None in
  let fr :=
    mkFrame 1016 (fun k => String.eqb k "ArrowRight") (1 # 2) "abc" 0 0 0 in
  option_map position
    (lookup "host"
       (players (snd (fst (gameLoop true "host" fr (mkLoopVars 1000 0 0) s)))))
  = Some (400, 300) /\
  sentMessages (snd (gameLoop false "nobody" fr (mkLoopVars 1000 0 0) s)) = [].
Proof.
  intros ann s fr. split.
  - destruct (frozen_or_absent_local_player_ignores_keys true "host" fr
                (mkLoopVars 1000 0 0) s) as (_ & Hpos & _).
    + right. exists ann. split; reflexivity.
    + rewrite Hpos. reflexivity.
  - destruct (frozen_or_absent_local_player_ignores_keys false "nobody" fr
                (mkLoopVars 1000 0 0) s) as (_ & _ & Hsent).
    + left. reflexivity.
    + now apply Hsent.
Defined.

(** ** The roster across a frame *)

Lemma map_fst_assign {A} k (v v' : A) obj :
  lookup k obj = Some v -> map fst (assign k v' obj) = map fst obj.
Proof.
  induction obj as [|[k0 v0] rest IH]; simpl; [discriminate|].
  destruct (String.eqb k k0); simpl; auto.
  intros H. now rewrite IH.
Qed.

Lemma collisionLogic_roster ev ps : forall prs,
  map fst (fst (collisionLogic ev ps prs)) = map fst ps /\
  map (fun kp => card (snd kp)) (fst (collisionLogic ev ps prs))
  = map (fun kp => card (snd kp)) ps.
Proof.
  induction ps as [|[k p] rest IH]; intros prs; simpl; auto.
  destruct (collectPresents_spec ev prs p)
    as ((Hid & _ & _ & Hsk & Hn & Hh & _) & _ & _).
  destruct (collectPresents ev p prs) as [p' prs'].
  destruct (IH prs') as [IH1 IH2].
  destruct (collisionLogic ev rest prs') as [rest' prs'']. simpl in *.
  rewrite IH1, IH2. unfold card. now rewrite Hid, Hsk, Hn, Hh.
Qed.

Lemma handleLocalInput_roster isHost my keys s :
  map fst (players (fst (handleLocalInput isHost my keys s)))
  = map fst (players s) /\
  map (fun kp => card (snd kp)) (players (fst (handleLocalInput isHost my keys s)))
  = map (fun kp => card (snd kp)) (players s).
Proof.
  destruct isHost.
  - destruct (handleLocalInput_host my keys s)
      as [_ [H|(p & dx & dy & Hl & _ & H)]]; rewrite H; auto.
    simpl. split.
    + now apply map_fst_assign with (v := p).
    + now apply map_assign with (v := p).
  - unfold handleLocalInput. destruct (localInput s my keys) as [dx dy].
    destruct (negb (dx =? 0)%Z || negb (dy =? 0)%Z); auto.
Qed.

(** Players after a frame, in terms of the state after section 1. *)
Lemma gameLoop_players isHost my fr lv s :
  let s1 := fst (handleLocalInput isHost my (keysPressed fr) s) in
  let s' := snd (fst (gameLoop isHost my fr lv s)) in
  players s' = players s1 \/
  exists ev, players s' = fst (collisionLogic ev (players s1) (presents s)).
Proof.
  unfold gameLoop.
  assert (Hpr : presents (fst (handleLocalInput isHost my (keysPressed fr) s))
                = presents s).
  { destruct isHost; [apply handleLocalInput_host_fields|].
    unfold handleLocalInput.
    destruct (localInput s my (keysPressed fr)) as [dx dy].
    destruct (negb (dx =? 0)%Z || negb (dy =? 0)%Z); auto. }
  destruct (handleLocalInput isHost my (keysPressed fr) s) as [s1 e1].
  simpl in *. destruct isHost; [|now left].
  destruct (Qle_bool _ 0); [now left|].
  match goal with
  | |- context [hostLogic ?f ?d ?l ?st] =>
      pose proof (hostLogic_state f d l st) as (Hp & _);
      destruct (hostLogic f d l st) as [[lv' s'] eh]
  end.
  simpl in *. right. eexists. rewrite Hp, Hpr. reflexivity.
Qed.

(** X4. No frame adds, removes or reorders players, and none changes a
    player's id, name, skin or host flag. *)
Theorem frame_keeps_roster :
  forall isHost my fr lv s,
    let s' := snd (fst (gameLoop isHost my fr lv s)) in
    map fst (players s') = map fst (players s) /\
    map (fun kp => card (snd kp)) (players s')
    = map (fun kp => card (snd kp)) (players s).
Proof.
  intros isHost my fr lv s s'.
  destruct (handleLocalInput_roster isHost my (keysPressed fr) s) as [H1 H2].
  destruct (gameLoop_players isHost my fr lv s) as [H|[ev H]];
    unfold s'; rewrite H.
  - now split.
  - destruct (collisionLogic_roster ev
                (players (fst (handleLocalInput isHost my (keysPressed fr) s)))
                (presents s)) as [H3 H4].
    rewrite H3, H4. now split.
Qed.

(** ** Scores *)

Lemma sumPoints_nonneg ev prs :
  Forall (fun present => (0 <= value present)%Z) prs ->
  (0 <= sumPoints ev prs)%Z.
Proof.
  unfold sumPoints. induction 1 as [|present rest H _ IH]; simpl; [lia|].
  assert (0 <= pointsOf ev present)%Z
    by (unfold pointsOf; destruct (eventIs ev DOUBLE_POINTS); lia).
  lia.
Qed.

Lemma Forall_filter {A} (P : A -> Prop) f l :
  Forall P l -> Forall P (filter f l).
Proof.
  induction 1 as [|a l Ha _ IH]; simpl; auto.
  destruct (f a); auto.
Qed.

Lemma collisionLogic_scores_grow ev ps : forall prs,
  Forall (fun present => (0 <= value present)%Z) prs ->
  Forall2 Z.le (map (fun kp => score (snd kp)) ps)
    (map (fun kp => score (snd kp)) (fst (collisionLogic ev ps prs))).
Proof.
  induction ps as [|[k p] rest IH]; intros prs Hv; simpl; [constructor|].
  destruct (collectPresents_spec ev prs p) as (_ & Hsc & Hk).
  destruct (collectPresents ev p prs) as [p' prs']. simpl in Hsc, Hk.
  assert (Hv' : Forall (fun present => (0 <= value present)%Z) prs')
    by (rewrite Hk; now apply Forall_filter).
  specialize (IH prs' Hv').
  destruct (collisionLogic ev rest prs') as [rest' prs'']. simpl in *.
  constructor; auto. rewrite Hsc.
  pose proof (sumPoints_nonneg ev (filter (hit p) prs)
                (Forall_filter _ _ _ Hv)). lia.
Qed.

Lemma Forall2_le_refl l : Forall2 Z.le l l.
Proof. induction l; constructor; auto. lia. Qed.

(** X5. When no present on the field has a negative value, a frame never
    lowers anybody's score. *)
Theorem frame_never_lowers_scores :
  forall isHost my fr lv s,
    Forall (fun present => (0 <= value present)%Z) (presents s) ->
    Forall2 Z.le
      (map (fun kp => score (snd kp)) (players s))
      (map (fun kp => score (snd kp))
         (players (snd (fst (gameLoop isHost my fr lv s))))).
Proof.
  intros isHost my fr lv s Hv.
  assert (Hsc : map (fun kp => score (snd kp))
                  (players (fst (handleLocalInput isHost my (keysPressed fr) s)))
                = map (fun kp => score (snd kp)) (players s)).
  { destruct isHost; [apply handleLocalInput_host_scores|].
    unfold handleLocalInput.
    destruct (localInput s my (keysPressed fr)) as [dx dy].
    destruct (negb (dx =? 0)%Z || negb (dy =? 0)%Z); auto. }
  destruct (gameLoop_players isHost my fr lv s) as [H|[ev H]]; rewrite H.
  - rewrite Hsc. apply Forall2_le_refl.
  - rewrite <- Hsc. now apply collisionLogic_scores_grow.
Qed.

Lemma frame_never_lowers_scores_witness :
  let ann := mkPlayer "host" 100 100 4%Z SANTA "Ann" true 0 0 None None in
  let gift := mkPresent "g1" 120 110 5%Z in
  let s := mkGameState [("host", ann)] [gift] None 100 None in
  let fr := mkFrame 1016 (fun _ => false) (1 # 2) "abc" 0 0 0 in
  Forall2 Z.le [4%Z]
    (map (fun kp => score (snd kp))
       (players (snd (fst (gameLoop true "host" fr (mkLoopVars 1000 0 0) s))))) /\
  map (fun kp => score (snd kp))
    (players (snd (fst (gameLoop true "host" fr (mkLoopVars 1000 0 0) s))))
  = [9%Z].
Proof.
  intros ann gift s fr. split.
  - apply (frame_never_lowers_scores true "host" fr (mkLoopVars 1000 0 0) s).
    repeat constructor. simpl. lia.
  - reflexivity.
Defined.

Lemma sumPoints_double ev prs :
  type ev = DOUBLE_POINTS ->
  sumPoints (Some ev) prs = (2 * sumPoints None prs)%Z.
Proof.
  intros Hty. unfold sumPoints.
  induction prs as [|present rest IH]; cbn [map fold_right]; [reflexivity|].
  assert (Hp : pointsOf (Some ev) present = (2 * pointsOf None present)%Z)
    by (unfold pointsOf, eventIs; rewrite Hty; cbn [EventType_eqb]; lia).
  rewrite IH, Hp. lia.
Qed.

(** X6. Collision resolution under DOUBLE_POINTS removes the same presents
    as with no event and gives every player exactly twice the points; under
    any other event type it is the same as with no event. *)
Theorem double_points_doubles_every_award :
  forall ev ps prs,
    (type ev = DOUBLE_POINTS ->
     snd (collisionLogic (Some ev) ps prs) = snd (collisionLogic None ps prs) /\
     gains ps (fst (collisionLogic (Some ev) ps prs))
     = map (Z.mul 2) (gains ps (fst (collisionLogic None ps prs)))) /\
    (type ev <> DOUBLE_POINTS ->
     collisionLogic (Some ev) ps prs = collisionLogic None ps prs).
Proof.
  intros ev ps prs. split.
  - intros Hty. split.
    + now rewrite !collisionLogic_presents.
    + revert prs. induction ps as [|[k p] rest IH]; intros prs; simpl; auto.
      destruct (collectPresents_spec (Some ev) prs p) as (_ & Hs1 & Hk1).
      destruct (collectPresents_spec None prs p) as (_ & Hs0 & Hk0).
      destruct (collectPresents (Some ev) p prs) as [p1 prs1].
      destruct (collectPresents None p prs) as [p0 prs0].
      simpl in *. subst prs1 prs0.
      specialize (IH (filter (fun present => negb (hit p present)) prs)).
      destruct (collisionLogic (Some ev) rest _) as [rest1 prs1'].
      destruct (collisionLogic None rest _) as [rest0 prs0'].
      unfold gains in *. cbn [map combine fst snd] in *. rewrite IH. f_equal.
      rewrite Hs1, Hs0, (sumPoints_double ev _ Hty). lia.
  - intros Hty. apply collisionLogic_ext. unfold eventIs.
    destruct (type ev); try reflexivity. now elim Hty.
Qed.

Lemma double_points_doubles_every_award_witness :
  let ann := mkPlayer "host" 100 100 0%Z SANTA "Ann" true 0 0 None None in
  let bob := mkPlayer "guest" 600 400 2%Z ELF "Bob" false 0 0 None None in
  let ps := [("host", ann); ("guest", bob)] in
  let prs := [mkPresent "g1" 120 110 5%Z; mkPresent "g2" 610 410 1%Z] in
  let twice := mkChaosEvent "Jackpot" "x2" DOUBLE_POINTS 10 true in
  gains ps (fst (collisionLogic None ps prs)) = [5%Z; 1%Z] /\
  gains ps (fst (collisionLogic (Some twice) ps prs)) = [10%Z; 2%Z].
Proof.
  intros ann bob ps prs twice. split; [reflexivity|].
  destruct (proj1 (double_points_doubles_every_award twice ps prs) eq_refl)
    as [_ H].
  rewrite H. reflexivity.
Defined.

(** ** Presents on the field *)

Lemma spawnPresents_ok fr s :
  App.isRandom (random_x fr) -> App.isRandom (random_y fr) ->
  presentsOk s -> presentsOk (spawnPresents fr s).
Proof.
  intros [Hx0 Hx1] [Hy0 Hy1] [Hlen Hall]. unfold spawnPresents.
  destruct (Z.of_nat (List.length (presents s)) <? 10)%Z eqn:E;
    [|now split].
  destruct (negb (Qle_bool (5 # 100) (random_spawn fr))); [|now split].
  apply Z.ltb_lt in E. unfold presentsOk. simpl. split.
  - rewrite length_app. simpl. lia.
  - apply Forall_app. split; [exact Hall|]. constructor; [|constructor].
    unfold presentOk, CANVAS_WIDTH, CANVAS_HEIGHT, PRESENT_SIZE. simpl.
    split; [|split].
    + destruct (negb (Qle_bool (random_value fr) (8 # 10))); auto.
    + split; lra.
    + split; lra.
Qed.

Lemma filter_length_le {A} (f : A -> bool) l :
  (List.length (filter f l) <= List.length l)%nat.
Proof.
  induction l as [|a l IH]; simpl; auto. destruct (f a); simpl; lia.
Qed.

(** Presents after a frame, in terms of the state before it. *)
Lemma gameLoop_presents isHost my fr lv s :
  let s' := snd (fst (gameLoop isHost my fr lv s)) in
  presents s' = presents s \/
  exists f, presents s'
            = presents (spawnPresents fr (setPresents (filter f (presents s)) s)).
Proof.
  unfold gameLoop.
  assert (Hpr : presents (fst (handleLocalInput isHost my (keysPressed fr) s))
                = presents s).
  { destruct isHost; [apply handleLocalInput_host_fields|].
    unfold handleLocalInput.
    destruct (localInput s my (keysPressed fr)) as [dx dy].
    destruct (negb (dx =? 0)%Z || negb (dy =? 0)%Z); auto. }
  destruct (handleLocalInput isHost my (keysPressed fr) s) as [s1 e1].
  simpl in *. destruct isHost; [|now left].
  destruct (Qle_bool _ 0); [now left|].
  match goal with
  | |- context [hostLogic ?f ?d ?l ?st] =>
      pose proof (hostLogic_state f d l st) as (_ & Hp & _);
      destruct (hostLogic f d l st) as [[lv' s'] eh]
  end.
  simpl in *. right. rewrite Hp, collisionLogic_presents, Hpr.
  eexists. apply spawnPresents_presents. reflexivity.
Qed.

Lemma gameLoop_presentsOk isHost my fr lv s :
  App.isRandom (random_x fr) -> App.isRandom (random_y fr) ->
  presentsOk s -> presentsOk (snd (fst (gameLoop isHost my fr lv s))).
Proof.
  intros Hx Hy Hok.
  destruct (gameLoop_presents isHost my fr lv s) as [H|[f H]];
    unfold presentsOk in *; rewrite H; auto.
  apply (spawnPresents_ok fr (setPresents (filter f (presents s)) s) Hx Hy).
  destruct Hok as [Hlen Hall]. split; simpl.
  - pose proof (filter_length_le f (presents s)). lia.
  - now apply Forall_filter.
Qed.

(** ** Invariants of a hosting session *)

Lemma dispatch_invariant (P : GameState -> Prop) :
  (forall s w, P s -> P (setWinnerId (Some w) s)) ->
  forall effs a,
    (forall s, App.gameState a = Some s -> P s) ->
    forall s, App.gameState (fold_left App.dispatch effs a) = Some s -> P s.
Proof.
  intros Hw. induction effs as [|e effs IH]; intros a Ha; simpl; auto.
  apply IH. destruct e; simpl; auto.
  intros s. destruct (App.gameState a) as [s0|]; [|discriminate].
  intros [= <-]. apply Hw. now apply Ha.
Qed.

(** A property of game states that the five ways of changing the hosted
    state preserve holds in every reachable state. *)
Lemma reachable_invariant (P : GameState -> Prop) :
  (forall i n k,
      P (mkGameState
           [(i, mkPlayer i (CANVAS_WIDTH / 2) (CANVAS_HEIGHT / 2) 0%Z k n true
                  0 0 None None)]
           [] None GAME_DURATION None)) ->
  (forall s src n k rx ry,
      P s -> App.isRandom rx -> App.isRandom ry ->
      P (setPlayers
           (assign src
              (mkPlayer src (rx * CANVAS_WIDTH) (ry * CANVAS_HEIGHT) 0%Z k n
                 false 0 0 None None) (players s)) s)) ->
  (forall isHost my fr lv s,
      P s -> App.isRandom (random_x fr) -> App.isRandom (random_y fr) ->
      P (snd (fst (gameLoop isHost my fr lv s)))) ->
  (forall s ev, P s -> P (setActiveEvent (Some ev) s)) ->
  (forall s w, P s -> P (setWinnerId (Some w) s)) ->
  forall a, App.reachable a -> forall s, App.gameState a = Some s -> P s.
Proof.
  intros Hinit Hjoin Hframe Hev Hw.
  induction 1 as [|n a _ IH|k a _ IH|peerId a _ IH Hph|rx ry msg src a _ IH Hh Hx Hy
                 |a _ IH Hph|fr lv a _ IH Hs Hx Hy Hv|ev a _ IH]; intros s.
  - discriminate.
  - apply IH.
  - apply IH.
  - unfold App.initHost.
    destruct (String.eqb (App.myName a) ""); [apply IH|].
    destruct peerId; [|apply IH]. simpl. intros [= <-]. apply Hinit.
  - destruct msg; simpl; try apply IH.
    destruct (App.gameState a) as [prev|] eqn:Hgs; simpl; [|now rewrite Hgs].
    intros [= <-]. apply Hjoin; auto.
  - unfold App.startGame. destruct (App.isHost a); apply IH.
  - unfold App.frame.
    destruct (App.phase a); simpl; try apply IH.
    destruct (App.gameState a) as [s0|] eqn:Hgs; simpl; [|now rewrite Hgs].
    pose proof (Hframe (App.isHost a) (App.myId a) fr lv s0 (IH s0 eq_refl)
                  Hx Hy) as Hf.
    destruct (gameLoop (App.isHost a) (App.myId a) fr lv s0) as [[lv' s'] effs].
    simpl in *. apply (dispatch_invariant P Hw effs).
    simpl. now intros s1 [= <-].
  - unfold App.handleTriggerGemini.
    destruct (App.isHost a); [|apply IH]. simpl.
    destruct (App.gameState a) as [prev|]; [|discriminate].
    intros [= <-]. apply Hev. now apply IH.
Qed.

(** X7. In every state a hosting session can reach there are at most ten
    presents on the field, each worth 1 or 5 points and lying inside the
    arena shrunk by the size of a present. *)
Theorem reachable_presents_capped_and_wellformed :
  forall a s,
    App.reachable a -> App.gameState a = Some s ->
    (List.length (presents s) <= 10)%nat /\ Forall presentOk (presents s).
Proof.
  intros a s Hr Hgs.
  apply (reachable_invariant presentsOk) with (a := a); auto.
  - intros. split; simpl; [lia|constructor].
  - intros. now apply gameLoop_presentsOk.
Qed.

Lemma reachable_presents_capped_and_wellformed_witness :
  let a0 := fst (App.startGame
                   (App.initHost (Some "host") (App.setMyName "Ann" App.initial))) in
  let fr := mkFrame 1016 (fun _ => false) (1 # 100) "abc" (1 # 2) (1 # 2) (9 # 10) in
  let a := snd (fst (App.frame fr (mkLoopVars 1000 0 0) a0)) in
  exists s, App.gameState a = Some s /\
            List.length (presents s) = 1%nat /\ Forall presentOk (presents s).
Proof.
  intros a0 fr a.
  assert (Hr : App.reachable a).
  { apply App.reach_frame; try (split; vm_compute; congruence).
    apply App.reach_start; [|reflexivity].
    apply App.reach_initHost; [|reflexivity].
    apply App.reach_name, App.reach_initial. }
  destruct (App.gameState a) as [s|] eqn:Hgs; [|vm_compute in Hgs; discriminate].
  exists s. split; [reflexivity|].
  destruct (reachable_presents_capped_and_wellformed a s Hr Hgs) as [_ Hall].
  split; [|exact Hall].
  vm_compute in Hgs. injection Hgs as <-. reflexivity.
Defined.

(** ** Keys and ids *)

Lemma map_fst_assign_In {A} k (v : A) k0 obj :
  In k0 (map fst (assign k v obj)) -> In k0 (map fst obj) \/ k0 = k.
Proof.
  induction obj as [|[k1 v1] rest IH]; simpl.
  - intros [H|[]]. now right.
  - destruct (String.eqb k k1); simpl; tauto.
Qed.

Lemma keysAreIds_assign v ps :
  keysAreIds ps -> keysAreIds (assign (id v) v ps).
Proof.
  unfold keysAreIds. intros [Hall Hnd].
  induction ps as [|[k0 v0] rest IH]; simpl.
  - split; [repeat constructor|].
    constructor; [intros []|constructor].
  - inversion Hall as [|? ? H0 Hrest Hl0]. inversion Hnd as [|? ? Hnin Hnd' Hl1].
    destruct (String.eqb (id v) k0) eqn:E; simpl.
    + apply String.eqb_eq in E. split.
      * constructor; auto.
      * simpl. now constructor.
    + destruct (IH Hrest Hnd') as [IH1 IH2]. split.
      * constructor; auto.
      * constructor; auto. intros Hin.
        destruct (map_fst_assign_In _ _ _ _ Hin) as [Hk|Hk];
          [contradiction|].
        rewrite Hk, String.eqb_refl in E. discriminate.
Qed.

Lemma keysAreIds_roster ps : forall ps',
  map fst ps' = map fst ps ->
  map (fun kp => card (snd kp)) ps' = map (fun kp => card (snd kp)) ps ->
  keysAreIds ps -> keysAreIds ps'.
Proof.
  unfold keysAreIds. intros ps' Hk Hc [Hall Hnd]. split; [|now rewrite Hk].
  revert ps' Hk Hc.
  induction Hall as [|[k p] rest H0 Hrest IH]; intros [|[k' p'] rest'] Hk Hc;
    simpl in *; try discriminate; constructor.
  - simpl. injection Hk as -> _. injection Hc as -> _. exact H0.
  - inversion Hnd; subst. apply IH; auto; congruence.
Qed.

Lemma gameLoop_roster isHost my fr lv s :
  map fst (players (snd (fst (gameLoop isHost my fr lv s))))
  = map fst (players s) /\
  map (fun kp => card (snd kp)) (players (snd (fst (gameLoop isHost my fr lv s))))
  = map (fun kp => card (snd kp)) (players s).
Proof.
  destruct (handleLocalInput_roster isHost my (keysPressed fr) s) as [H1 H2].
  destruct (gameLoop_players isHost my fr lv s) as [H|[ev H]]; rewrite H.
  - now split.
  - destruct (collisionLogic_roster ev
                (players (fst (handleLocalInput isHost my (keysPressed fr) s)))
                (presents s)) as [H3 H4].
    rewrite H3, H4. now split.
Qed.

(** X8. In every state a hosting session can reach, each player is filed
    under its own id and no id occurs twice: a repeated join request from one
    peer replaces that peer's entry instead of adding a second one. *)
Theorem reachable_players_keyed_by_unique_ids :
  forall a s,
    App.reachable a -> App.gameState a = Some s ->
    Forall (fun kp => id (snd kp) = fst kp) (players s) /\
    NoDup (map fst (players s)).
Proof.
  intros a s Hr Hgs.
  apply (reachable_invariant (fun s => keysAreIds (players s))) with (a := a);
    auto.
  - intros. split; simpl; repeat constructor. intros [].
  - intros s0 src n k rx ry H0 _ _. simpl.
    now apply (keysAreIds_assign
                 (mkPlayer src (rx * CANVAS_WIDTH) (ry * CANVAS_HEIGHT) 0%Z k n
                    false 0 0 None None)).
  - intros isHost my fr lv s0 H0 _ _.
    destruct (gameLoop_roster isHost my fr lv s0) as [H1 H2].
    now apply (keysAreIds_roster (players s0)).
Qed.

Lemma reachable_players_keyed_by_unique_ids_witness :
  let lobby := App.initHost (Some "host") (App.setMyName "Ann" App.initial) in
  let once :=
    fst (App.hostOnMessage (1 # 4) (1 # 2) (JOIN_REQUEST "Bob" ELF) "guest"
           lobby) in
  let twice :=
    fst (App.hostOnMessage (3 # 4) (1 # 4) (JOIN_REQUEST "Bobby" COOKIE) "guest"
           once) in
  exists s, App.gameState twice = Some s /\
            map fst (players s) = ["host"; "guest"] /\
            NoDup (map fst (players s)) /\
            option_map name (lookup "guest" (players s)) = Some "Bobby".
Proof.
  intros lobby once twice.
  assert (Hr : App.reachable twice).
  { repeat (apply App.reach_message;
            [|reflexivity|split; vm_compute; congruence
             |split; vm_compute; congruence]).
    apply App.reach_initHost; [|reflexivity].
    apply App.reach_name, App.reach_initial. }
  eexists. split; [reflexivity|]. split; [reflexivity|]. split.
  - apply (reachable_players_keyed_by_unique_ids twice _ Hr eq_refl).
  - reflexivity.
Defined.

Lemma In_lookup k (p : Player) ps :
  NoDup (map fst ps) -> In (k, p) ps -> lookup k ps = Some p.
Proof.
  induction ps as [|[k0 p0] rest IH]; simpl; [intros _ []|].
  intros Hnd [H|H].
  - injection H as -> ->. now rewrite String.eqb_refl.
  - inversion Hnd as [|? ? Hnin Hnd']; subst.
    destruct (String.eqb k k0) eqn:E; [|auto].
    apply String.eqb_eq in E. subst k0. exfalso. apply Hnin.
    change k with (fst (k, p)). now apply in_map.
Qed.

(** X9. When players are filed under their unique ids, the id [getWinner]
    returns for a non-empty map is the key of a player nobody outscores:
    looking the winner up, as the game-over screen does, finds a top
    scorer.  For an empty map [getWinner] returns the empty string. *)
Theorem winner_lookup_finds_top_scorer :
  forall ps,
    keysAreIds ps ->
    (ps = [] -> getWinner ps = "") /\
    (ps <> [] ->
     exists w,
       lookup (getWinner ps) ps = Some w /\ id w = getWinner ps /\
       Forall (fun q => (score q <= score w)%Z) (values ps)).
Proof.
  intros ps [Hall Hnd]. split; [now intros ->|].
  intros Hne.
  destruct (getWinner_first_max ps Hne) as (l1 & w & l2 & Heq & Hw & H1 & H2).
  exists w.
  assert (Hin : In w (values ps)).
  { rewrite Heq. apply in_or_app. right. now left. }
  unfold values in Hin. apply in_map_iff in Hin.
  destruct Hin as ([k p] & Hp & Hin). simpl in Hp. subst p.
  rewrite Forall_forall in Hall. pose proof (Hall _ Hin) as Hid. simpl in Hid.
  split; [|split].
  - rewrite Hw, Hid. now apply In_lookup.
  - now rewrite Hw.
  - rewrite Heq. apply Forall_app. split.
    + eapply Forall_impl; [|exact H1]. simpl. intros. lia.
    + constructor; [lia|exact H2].
Qed.

Lemma winner_lookup_finds_top_scorer_witness :
  let ann := mkPlayer "host" 400 300 7%Z SANTA "Ann" true 0 0 None None in
  let bob := mkPlayer "guest" 100 100 7%Z ELF "Bob" false 0 0 None None in
  let ps := [("host", ann); ("guest", bob)] in
  keysAreIds ps /\ getWinner ps = "host" /\
  exists w, lookup (getWinner ps) ps = Some w /\ score w = 7%Z.
Proof.
  intros ann bob ps.
  assert (Hk : keysAreIds ps).
  { split; simpl; repeat constructor; simpl; intuition discriminate. }
  split; [exact Hk|]. split; [reflexivity|].
  destruct (proj2 (winner_lookup_finds_top_scorer ps Hk)) as (w & Hl & _).
  - discriminate.
  - exists w. split; [exact Hl|].
    vm_compute in Hl. now injection Hl as <-.
Defined.

(** ** Phase, winner and clock *)

Lemma dispatch_without_game_over effs : forall a,
  existsb isOnGameOver effs = false -> fold_left App.dispatch effs a = a.
Proof.
  induction effs as [|e effs IH]; intros a; simpl; auto.
  intros H. apply orb_false_iff in H. destruct H as [He Hrest].
  destruct e; try discriminate; simpl; now apply IH.
Qed.

Lemma dispatch_game_over e1 w a :
  existsb isOnGameOver e1 = false ->
  fold_left App.dispatch (e1 ++ [OnGameOver w]) a = App.handleGameOver w a.
Proof.
  intros H. rewrite fold_left_app, (dispatch_without_game_over e1 a H).
  reflexivity.
Qed.

Lemma handleLocalInput_quiet isHost my keys s :
  existsb isOnGameOver (snd (handleLocalInput isHost my keys s)) = false /\
  existsb isTrigger (snd (handleLocalInput isHost my keys s)) = false /\
  timeLeft (fst (handleLocalInput isHost my keys s)) = timeLeft s /\
  winnerId (fst (handleLocalInput isHost my keys s)) = winnerId s /\
  activeEvent (fst (handleLocalInput isHost my keys s)) = activeEvent s.
Proof.
  destruct isHost.
  - destruct (handleLocalInput_host my keys s) as [He _].
    destruct (handleLocalInput_host_fields my keys s) as (_ & Hev & Ht & Hw).
    rewrite He. auto.
  - unfold handleLocalInput. destruct (localInput s my keys) as [dx dy].
    destruct (negb (dx =? 0)%Z || negb (dy =? 0)%Z); simpl; auto.
Qed.

Lemma hostLogic_quiet fr dt lv s :
  existsb isOnGameOver (snd (hostLogic fr dt lv s)) = false /\
  winnerId (snd (fst (hostLogic fr dt lv s))) = winnerId s /\
  activeEvent (snd (fst (hostLogic fr dt lv s)))
  = activeEvent (manageEventTimer dt s).
Proof.
  unfold hostLogic.
  destruct (manageEventTimer_players dt s) as (_ & _ & _ & Hw).
  destruct (shouldTrigger _ _ _);
    destruct (collisionLogic _ _ _) as [ps prs];
    unfold broadcastState, spawnPresents; simpl;
    split_on_tests; auto.
Qed.

(** How a frame ends: either the clock has run out and the last thing the
    frame does is report the winner, or nothing is reported and a positive
    clock stays positive. *)
Lemma gameLoop_outcome isHost my fr lv s :
  let r := gameLoop isHost my fr lv s in
  winnerId (snd (fst r)) = winnerId s /\
  ((timeLeft (snd (fst r)) <= 0 /\
    exists e1, existsb isOnGameOver e1 = false /\
               snd r = e1 ++ [OnGameOver (getWinner (players (snd (fst r))))]) \/
   (existsb isOnGameOver (snd r) = false /\
    (0 < timeLeft s -> 0 < timeLeft (snd (fst r))))).
Proof.
  unfold gameLoop.
  destruct (handleLocalInput_quiet isHost my (keysPressed fr) s)
    as (Hq & _ & Ht & Hw & _).
  destruct (handleLocalInput isHost my (keysPressed fr) s) as [s1 e1].
  simpl in *. destruct isHost.
  - destruct (Qle_bool (timeLeft s1 - (time fr - lastTime lv) / 1000) 0) eqn:E.
    + simpl. split; [exact Hw|]. left. split.
      * now apply Qle_bool_iff.
      * now exists e1.
    + match goal with
      | |- context [hostLogic ?f ?d ?l ?st] =>
          pose proof (hostLogic_state f d l st) as (_ & _ & Htl);
          pose proof (hostLogic_quiet f d l st) as (Hq' & Hw' & _);
          destruct (hostLogic f d l st) as [[lv' s'] eh]
      end.
      simpl in *. split; [congruence|]. right. split.
      * rewrite !existsb_app, Hq, Hq'. reflexivity.
      * intros _. rewrite Htl. apply Qnot_le_lt. intros Hle.
        apply Qle_bool_iff in Hle. congruence.
  - simpl. split; [exact Hw|]. right. split.
    + rewrite existsb_app, Hq. reflexivity.
    + now rewrite Ht.
Qed.

(** X10. In every state a hosting session can reach, a game state exists
    exactly outside the menu; a winner is recorded exactly in the game-over
    phase; and the clock is positive while no winner is recorded and at most
    zero once one is. *)
Theorem reachable_session_consistent :
  forall a, App.reachable a -> sessionOk a.
Proof.
  unfold sessionOk.
  induction 1 as [|n a _ IH|k a _ IH|peerId a _ IH Hph|rx ry msg src a _ IH Hh Hx Hy
                 |a _ IH Hph|fr lv a _ IH Hs Hx Hy Hv|ev a _ IH]; simpl.
  - reflexivity.
  - exact IH.
  - exact IH.
  - unfold App.initHost.
    destruct (String.eqb (App.myName a) ""); simpl; [exact IH|].
    destruct peerId; simpl; [|exact IH].
    split; [discriminate|]. split; [|split].
    + split; [discriminate|]. intros H. now elim H.
    + intros _. reflexivity.
    + intros H. now elim H.
  - destruct msg; simpl; try exact IH.
    destruct (App.gameState a) as [prev|] eqn:Hgs; simpl; [exact IH|].
    now rewrite Hgs.
  - unfold App.startGame. destruct (App.isHost a); simpl; [|exact IH].
    destruct (App.gameState a) as [s|]; [|congruence].
    destruct IH as (_ & Hgo & Hpos & Hneg). rewrite Hph in Hgo.
    assert (Hw : winnerId s = None).
    { destruct (winnerId s); auto.
      assert (H : LOBBY = GAME_OVER_PHASE) by (apply Hgo; discriminate).
      discriminate. }
    split; [discriminate|]. split; [|split; auto].
    rewrite Hw. split; [discriminate|]. intros H. now elim H.
  - unfold App.frame.
    destruct (App.gameState a) as [s|] eqn:Hgs;
      destruct (App.phase a) eqn:Hph; simpl; rewrite ?Hgs, ?Hph;
      try exact IH.
    destruct IH as (_ & Hgo & Hpos & _).
    assert (Hw : winnerId s = None).
    { destruct (winnerId s); auto.
      assert (H : PLAYING = GAME_OVER_PHASE) by (apply Hgo; discriminate).
      discriminate. }
    pose proof (gameLoop_outcome (App.isHost a) (App.myId a) fr lv s)
      as (Hw' & Hout).
    destruct (gameLoop (App.isHost a) (App.myId a) fr lv s) as [[lv' s'] effs].
    simpl in *. rewrite Hw in Hw'.
    destruct Hout as [(Hle & e1 & Hq & ->)|(Hq & Hgt)].
    + rewrite (dispatch_game_over e1 _ _ Hq). simpl.
      split; [discriminate|]. split; [|split].
      * split; [discriminate|reflexivity].
      * discriminate.
      * intros _. exact Hle.
    + rewrite (dispatch_without_game_over effs _ Hq). simpl. rewrite Hph.
      split; [discriminate|]. rewrite Hw'. split; [|split].
      * split; [discriminate|]. intros H. now elim H.
      * intros _. apply Hgt. now apply Hpos.
      * intros H. now elim H.
  - unfold App.handleTriggerGemini.
    destruct (App.isHost a); simpl; [|exact IH].
    destruct (App.gameState a) as [s|]; simpl; exact IH.
Qed.

Lemma reachable_session_consistent_witness :
  let playing :=
    fst (App.startGame
           (App.initHost (Some "host") (App.setMyName "Ann" App.initial))) in
  let fr := mkFrame 121000 (fun _ => false) (1 # 2) "abc" 0 0 0 in
  let ended := snd (fst (App.frame fr (mkLoopVars 0 0 0) playing)) in
  sessionOk ended /\ App.phase ended = GAME_OVER_PHASE /\
  option_map winnerId (App.gameState ended) = Some (Some "host").
Proof.
  intros playing fr ended. split; [|split; reflexivity].
  apply reachable_session_consistent.
  apply App.reach_frame; try (split; vm_compute; congruence).
  apply App.reach_start; [|reflexivity].
  apply App.reach_initHost; [|reflexivity].
  apply App.reach_name, App.reach_initial.
Defined.

(** ** The active event across a frame *)

Lemma gameLoop_continues my fr lv s :
  0 < timeLeft s - (time fr - lastTime lv) / 1000 ->
  exists e1 lv1,
    handleLocalInput true my (keysPressed fr) s
      = (fst (handleLocalInput true my (keysPressed fr) s), e1) /\
    lastNetworkUpdate lv1 = lastNetworkUpdate lv /\
    lastEventTrigger lv1 = lastEventTrigger lv /\
    gameLoop true my fr lv s
    = (let '(lv', s', eh) :=
         hostLogic fr ((time fr - lastTime lv) / 1000) lv1
           (setTimeLeft (timeLeft s - (time fr - lastTime lv) / 1000)
              (fst (handleLocalInput true my (keysPressed fr) s))) in
       (lv', s', e1 ++ eh ++ [Render s'; RequestAnimationFrame])).
Proof.
  intros Hpos. unfold gameLoop.
  destruct (handleLocalInput_host_fields my (keysPressed fr) s)
    as (_ & _ & Ht & _).
  destruct (handleLocalInput true my (keysPressed fr) s) as [s1 e1].
  simpl in *. rewrite Ht.
  assert (E : Qle_bool (timeLeft s - (time fr - lastTime lv) / 1000) 0 = false).
  { destruct (Qle_bool _ 0) eqn:E; auto.
    apply Qle_bool_iff in E. exfalso.
    apply (Qlt_irrefl 0). eapply Qlt_le_trans; eauto. }
  rewrite E. eexists. eexists. split; [reflexivity|].
  split; [|split]; [| |reflexivity]; reflexivity.
Qed.

(** X11. In a host frame that does not end the match, an active event whose
    remaining duration the elapsed time uses up is cleared, one with time left
    keeps its name, description and type with the duration reduced by the
    elapsed time, and an event whose [active] flag is off is left as it is. *)
Theorem event_counts_down_then_clears :
  forall my fr lv s e,
    activeEvent s = Some e ->
    let dt := (time fr - lastTime lv) / 1000 in
    0 < timeLeft s - dt ->
    let s' := snd (fst (gameLoop true my fr lv s)) in
    (active e = true -> duration e - dt <= 0 -> activeEvent s' = None) /\
    (active e = true -> 0 < duration e - dt ->
     activeEvent s'
     = Some (mkChaosEvent (event_name e) (description e) (type e)
               (duration e - dt) true)) /\
    (active e = false -> activeEvent s' = Some e).
Proof.
  intros my fr lv s e Hev dt Hpos s'.
  destruct (gameLoop_continues my fr lv s Hpos) as (e1 & lv1 & _ & _ & _ & Hg).
  destruct (handleLocalInput_quiet true my (keysPressed fr) s)
    as (_ & _ & _ & _ & Hev1).
  unfold s'. rewrite Hg.
  match goal with
  | |- context [hostLogic ?f ?d ?l ?st] =>
      pose proof (hostLogic_quiet f d l st) as (_ & _ & Ha);
      destruct (hostLogic f d l st) as [[lv' s2] eh]
  end.
  simpl in Ha. simpl. rewrite Ha. unfold manageEventTimer. simpl.
  rewrite Hev1, Hev. fold dt.
  split; [|split].
  - intros Hac Hle. rewrite Hac. apply Qle_bool_iff in Hle. simpl.
    now rewrite Hle.
  - intros Hac Hgt. rewrite Hac. simpl.
    destruct (Qle_bool (duration e - dt) 0) eqn:E;
      [|simpl; now rewrite ?Hac].
    apply Qle_bool_iff in E. exfalso.
    apply (Qlt_irrefl 0). exact (Qlt_le_trans _ _ _ Hgt E).
  - intros Hac. rewrite Hac. simpl. now rewrite Hev1, Hev.
Qed.

Lemma event_counts_down_then_clears_witness :
  let fog := mkChaosEvent "Blizzard!" "Cold" SLOWNESS (1 # 100) true in
  let ann := mkPlayer "host" 400 300 0%Z SANTA "Ann" true 0 0 None None in
  let s := mkGameState [("host", ann)] [] (Some fog) 100 None in
  let fr := mkFrame 1020 (fun _ => false) (1 # 2) "abc" 0 0 0 in
  activeEvent (snd (fst (gameLoop true "host" fr (mkLoopVars 1000 0 0) s)))
  = None.
Proof.
  intros fog ann s fr.
  apply (proj1 (event_counts_down_then_clears "host" fr (mkLoopVars 1000 0 0) s
                  fog eq_refl ltac:(vm_compute; reflexivity))).
  - reflexivity.
  - vm_compute. discriminate.
Defined.

(** ** Requests for chaos events *)

Lemma hostLogic_trigger fr dt lv s :
  let r := hostLogic fr dt lv s in
  (existsb isTrigger (snd r) = true /\
   5000 < time fr - lastEventTrigger lv /\
   lastEventTrigger (fst (fst r)) = time fr /\
   shouldTrigger (time fr) (lastEventTrigger lv) (manageEventTimer dt s) = true) \/
  (existsb isTrigger (snd r) = false /\
   lastEventTrigger (fst (fst r)) = lastEventTrigger lv).
Proof.
  unfold hostLogic.
  destruct (shouldTrigger (time fr) (lastEventTrigger lv) (manageEventTimer dt s))
    eqn:Htr;
    destruct (collisionLogic _ _ _) as [ps prs];
    unfold broadcastState; cbn [lastNetworkUpdate lastEventTrigger];
    destruct (Qle_bool (time fr - lastNetworkUpdate lv) 40); simpl;
    try (right; split; reflexivity);
    left; repeat split;
    unfold shouldTrigger in Htr;
    destruct (activeEvent (manageEventTimer dt s)); try discriminate;
    apply andb_true_iff in Htr; destruct Htr as [_ Htr];
    apply negb_true_iff in Htr;
    apply Qnot_le_lt; intros Hle; apply Qle_bool_iff in Hle; congruence.
Qed.

Lemma gameLoop_trigger isHost my fr lv s :
  let r := gameLoop isHost my fr lv s in
  (existsb isTrigger (snd r) = true /\
   5000 < time fr - lastEventTrigger lv /\
   lastEventTrigger (fst (fst r)) = time fr) \/
  (existsb isTrigger (snd r) = false /\
   lastEventTrigger (fst (fst r)) = lastEventTrigger lv).
Proof.
  unfold gameLoop.
  destruct (handleLocalInput_quiet isHost my (keysPressed fr) s)
    as (_ & Hq & _).
  destruct (handleLocalInput isHost my (keysPressed fr) s) as [s1 e1].
  simpl in Hq. destruct isHost.
  - destruct (Qle_bool _ 0).
    + right. simpl. rewrite existsb_app, Hq. auto.
    + set (lv1 := mkLoopVars (time fr) (lastNetworkUpdate lv) (lastEventTrigger lv)).
      pose proof (hostLogic_trigger fr ((time fr - lastTime lv) / 1000) lv1
                    (setTimeLeft (timeLeft s1 - (time fr - lastTime lv) / 1000) s1))
        as H.
      destruct (hostLogic _ _ _ _) as [[lv' s'] eh]. simpl in *.
      rewrite !existsb_app, Hq. simpl. rewrite orb_false_r.
      destruct H as [(H1 & H2 & H3 & _)|H]; [left|right]; auto.
  - right. simpl. rewrite existsb_app, Hq. auto.
Qed.

Lemma runLoop_apart isHost my frames : forall lv s,
  apart 5000 (lastEventTrigger lv)
    (triggerTimes (runLoop isHost my frames lv s)).
Proof.
  induction frames as [|fr rest IH]; intros lv s; simpl; auto.
  pose proof (gameLoop_trigger isHost my fr lv s) as H.
  destruct (gameLoop isHost my fr lv s) as [[lv' s'] effs]. simpl in H.
  unfold triggerTimes in *. simpl.
  destruct H as [(Hb & Hgap & Hlast)|(Hb & Hlast)]; rewrite Hb; simpl.
  - split; auto. destruct (rearms effs); simpl; auto.
    rewrite <- Hlast. apply IH.
  - destruct (rearms effs); simpl.
    + rewrite <- Hlast. apply IH.
    + exact I.
Qed.

Lemma apart_consecutive gap l1 : forall last t1 t2 l2,
  apart gap last (l1 ++ t1 :: t2 :: l2) -> gap < t2 - t1.
Proof.
  induction l1 as [|t l1 IH]; intros last t1 t2 l2; simpl.
  - tauto.
  - intros [_ H]. eapply IH. exact H.
Qed.

(** X12. In a run of the frame loop two consecutive requests for a chaos
    event are made by frames more than 5000ms apart, however long the
    periodic condition stays true. *)
Theorem event_requests_more_than_5s_apart :
  forall isHost my frames lv s l1 t1 t2 l2,
    triggerTimes (runLoop isHost my frames lv s) = l1 ++ t1 :: t2 :: l2 ->
    5000 < t2 - t1.
Proof.
  intros isHost my frames lv s l1 t1 t2 l2 Heq.
  pose proof (runLoop_apart isHost my frames lv s) as H.
  rewrite Heq in H. now apply apart_consecutive in H.
Qed.

Lemma event_requests_more_than_5s_apart_witness :
  let ann := mkPlayer "host" 400 300 0%Z SANTA "Ann" true 0 0 None None in
  let s := mkGameState [("host", ann)] [] None 90 None in
  let quiet t := mkFrame t (fun _ => false) (1 # 2) "abc" 0 0 0 in
  let frames := [quiet 6000; quiet 6016; quiet 6032; quiet 36000] in
  triggerTimes (runLoop true "host" frames (mkLoopVars 5900 0 0) s)
    = [6000; 36000] /\
  5000 < 36000 - 6000.
Proof.
  intros ann s quiet frames.
  assert (Heq : triggerTimes (runLoop true "host" frames (mkLoopVars 5900 0 0) s)
                = [] ++ 6000 :: 36000 :: []) by (vm_compute; reflexivity).
  split; [exact Heq|].
  exact (event_requests_more_than_5s_apart true "host" frames
           (mkLoopVars 5900 0 0) s [] 6000 36000 [] Heq).
Defined.

Lemma manageEventTimer_timeLeft dt s :
  timeLeft (manageEventTimer dt s) = timeLeft s.
Proof. apply manageEventTimer_players. Qed.

(** X13. A frame requests a chaos event only on the host, only when no event
    is active at the end of that frame, only when the whole seconds elapsed
    of the 120 are a positive multiple of 30, and only when the frame's time
    is more than 5000ms past the value the loop variable [lastEventTrigger]
    holds when the frame starts (0 when the loop effect has just started,
    else the time of the last request of this run of the effect). *)
Theorem event_requested_only_when_due :
  forall isHost my fr lv s,
    In TriggerGeminiEvent (snd (gameLoop isHost my fr lv s)) ->
    let s' := snd (fst (gameLoop isHost my fr lv s)) in
    isHost = true /\
    activeEvent s' = None /\
    (0 < Qfloor (120 - timeLeft s'))%Z /\
    Z.rem (Qfloor (120 - timeLeft s')) 30 = 0%Z /\
    5000 < time fr - lastEventTrigger lv.
Proof.
  intros isHost my fr lv s Hin.
  assert (Hex : existsb isTrigger (snd (gameLoop isHost my fr lv s)) = true).
  { apply existsb_exists. exists TriggerGeminiEvent. now split. }
  clear Hin. revert Hex. unfold gameLoop.
  destruct (handleLocalInput_quiet isHost my (keysPressed fr) s)
    as (_ & Hq & _).
  destruct (handleLocalInput isHost my (keysPressed fr) s) as [s1 e1].
  simpl in Hq. destruct isHost.
  - destruct (Qle_bool _ 0).
    + simpl. rewrite existsb_app, Hq. discriminate.
    + match goal with
      | |- context [hostLogic ?f ?d ?l ?st] =>
          pose proof (hostLogic_trigger f d l st) as Htr;
          pose proof (hostLogic_quiet f d l st) as (_ & _ & Hev);
          pose proof (hostLogic_state f d l st) as (_ & _ & Htl);
          destruct (hostLogic f d l st) as [[lv' s'] eh]
      end.
      simpl in *. rewrite !existsb_app, Hq. simpl. rewrite orb_false_r.
      intros Hex. destruct Htr as [(_ & Hgap & _ & Hsh)|[Hno _]];
        [|congruence].
      unfold shouldTrigger in Hsh.
      rewrite manageEventTimer_timeLeft in Hsh. simpl in Hsh.
      rewrite Hev, Htl.
      destruct (activeEvent (manageEventTimer _ _)); [discriminate|].
      apply andb_true_iff in Hsh. destruct Hsh as [Hsh _].
      apply andb_true_iff in Hsh. destruct Hsh as [H1 H2].
      apply Z.ltb_lt in H1. apply Z.eqb_eq in H2. auto.
  - simpl. rewrite existsb_app, Hq. discriminate.
Qed.

Lemma event_requested_only_when_due_witness :
  let ann := mkPlayer "host" 400 300 0%Z SANTA "Ann" true 0 0 None None in
  let s := mkGameState [("host", ann)] [] None 90 None in
  let fr := mkFrame 6000 (fun _ => false) (1 # 2) "abc" 0 0 0 in
  In TriggerGeminiEvent (snd (gameLoop true "host" fr (mkLoopVars 5900 0 0) s)) /\
  activeEvent (snd (fst (gameLoop true "host" fr (mkLoopVars 5900 0 0) s)))
  = None.
Proof.
  intros ann s fr.
  assert (Hin : In TriggerGeminiEvent
                  (snd (gameLoop true "host" fr (mkLoopVars 5900 0 0) s)))
    by (vm_compute; auto).
  split; [exact Hin|].
  apply (event_requested_only_when_due true "host" fr (mkLoopVars 5900 0 0) s Hin).
Defined.

(** ** What a frame puts on the wire *)

Lemma broadcastState_spec now lv st :
  (snd (broadcastState now lv st) = [] \/
   (40 < now - lastNetworkUpdate lv /\
    snd (broadcastState now lv st)
    = [Broadcast (GAME_UPDATE st);
       SetOverlay (orNull event_name (activeEvent st))
         (orNull description (activeEvent st)) (timeLeft st)])).
Proof.
  unfold broadcastState.
  destruct (Qle_bool (now - lastNetworkUpdate lv) 40) eqn:E; simpl; auto.
  right. split; auto.
  apply Qnot_le_lt. intros Hle. apply Qle_bool_iff in Hle. congruence.
Qed.

(** The effects of the host logic: at most one request for an event, then at
    most one broadcast, of the final state. *)
Lemma hostLogic_effects fr dt lv s :
  let r := hostLogic fr dt lv s in
  exists trig net,
    snd r = trig ++ net /\
    (trig = [] \/ trig = [TriggerGeminiEvent]) /\
    (net = [] \/
     (40 < time fr - lastNetworkUpdate lv /\
      net = [Broadcast (GAME_UPDATE (snd (fst r)));
             SetOverlay (orNull event_name (activeEvent (snd (fst r))))
               (orNull description (activeEvent (snd (fst r))))
               (timeLeft (snd (fst r)))])).
Proof.
  unfold hostLogic.
  destruct (shouldTrigger _ _ _);
    [exists [TriggerGeminiEvent]|exists []];
    destruct (collisionLogic _ _ _) as [ps prs];
    match goal with
    | |- context [broadcastState ?n ?l ?st] =>
        pose proof (broadcastState_spec n l st) as Hb;
        destruct (broadcastState n l st) as [lv2 net] eqn:Eb
    end; simpl in *;
    exists net; (split; [reflexivity|]); split; auto.
Qed.



(** * Session handlers *)

(** X15. A join request handled by a host that has a game state files the
    requester under its peer id with the requested name and skin, score 0,
    not host, at a random place with 0 <= x < width and 0 <= y < height; it
    leaves every other player, the presents, the event, the clock, the winner
    and the phase alone; and it answers the requester, and only the
    requester, with the very state it stored.  Without a game state the
    request is dropped without an answer. *)
Theorem join_request_files_requester :
  forall rx ry n k src a,
    let r := App.hostOnMessage rx ry (JOIN_REQUEST n k) src a in
    (forall prev,
        App.gameState a = Some prev -> App.isRandom rx -> App.isRandom ry ->
        exists next p,
          App.gameState (fst r) = Some next /\
          snd r = [SendToPeer src (JOIN_ACCEPT next src)] /\
          lookup src (players next) = Some p /\
          id p = src /\ name p = n /\ skin p = k /\ score p = 0%Z /\
          isHost p = false /\
          (0 <= x p /\ x p < CANVAS_WIDTH) /\
          (0 <= y p /\ y p < CANVAS_HEIGHT) /\
          (forall k', k' <> src ->
                      lookup k' (players next) = lookup k' (players prev)) /\
          presents next = presents prev /\
          activeEvent next = activeEvent prev /\
          timeLeft next = timeLeft prev /\
          winnerId next = winnerId prev /\
          App.phase (fst r) = App.phase a) /\
    (App.gameState a = None -> r = (a, [])).
Proof.
  intros rx ry n k src a r. unfold r. simpl. split.
  - intros prev Hgs [Hx0 Hx1] [Hy0 Hy1]. rewrite Hgs. simpl.
    eexists. eexists. split; [reflexivity|]. split; [reflexivity|].
    split; [apply lookup_assign_eq|]. simpl.
    unfold CANVAS_WIDTH, CANVAS_HEIGHT.
    repeat split; auto; try lra.
    intros k' Hne. now apply lookup_assign_other.
  - intros Hgs. now rewrite Hgs.
Qed.

Lemma join_request_files_requester_witness :
  let lobby := App.initHost (Some "host") (App.setMyName "Ann" App.initial) in
  let r := App.hostOnMessage (1 # 4) (1 # 2) (JOIN_REQUEST "Bob" ELF) "guest"
             lobby in
  exists next p,
    App.gameState (fst r) = Some next /\
    snd r = [SendToPeer "guest" (JOIN_ACCEPT next "guest")] /\
    lookup "guest" (players next) = Some p /\ name p = "Bob" /\
    map fst (players next) = ["host"; "guest"].
Proof.
  intros lobby r.
  destruct (proj1 (join_request_files_requester (1 # 4) (1 # 2) "Bob" ELF
                     "guest" lobby) _ eq_refl)
    as (next & p & Hgs & Hout & Hl & _ & Hn & _).
  - split; vm_compute; congruence.
  - split; vm_compute; congruence.
  - exists next, p. split; [exact Hgs|]. split; [exact Hout|].
    split; [exact Hl|]. split; [exact Hn|].
    vm_compute in Hgs. now injection Hgs as <-.
Defined.

(** X16. What [initHost] does once it runs to its end.  With a name, and
    [peerService.initialize()] resolved to a peer id, it creates the game
    state with the host as its only player (filed under the peer id, at the
    centre, inside the arena, score 0), no presents, no event, the full clock
    and no winner, and makes the participant the host.  Without a name (the
    test comes before the call), or when the awaited call rejected, it sets
    an error message and changes nothing else.  While the awaited call stays
    pending [initHost] has not run to its end, and nothing is said here. *)
Theorem initHost_opens_lobby_or_reports :
  forall peerId a,
    (forall i, App.myName a <> "" -> peerId = Some i ->
       exists host,
         App.initHost peerId a
         = App.mkState LOBBY (App.myName a) (App.mySkin a) i (App.error a)
             (Some (mkGameState [(i, host)] [] None GAME_DURATION None)) i true /\
         card host = (i, App.myName a, App.mySkin a, true) /\
         score host = 0%Z /\ inArena host /\
         x host == CANVAS_WIDTH / 2 /\ y host == CANVAS_HEIGHT / 2) /\
    (App.myName a = "" \/ peerId = None ->
     exists msg, msg <> "" /\ App.initHost peerId a = App.setError msg a).
Proof.
  intros peerId a. split.
  - intros i Hn ->. unfold App.initHost.
    apply String.eqb_neq in Hn. rewrite Hn.
    eexists. split; [reflexivity|]. simpl.
    repeat split; try reflexivity; vm_compute; discriminate.
  - intros H. unfold App.initHost.
    destruct (String.eqb (App.myName a) "") eqn:E.
    + eexists. split; [|reflexivity]. discriminate.
    + destruct H as [H| ->].
      * apply String.eqb_neq in E. contradiction.
      * eexists. split; [|reflexivity]. discriminate.
Qed.

Lemma initHost_opens_lobby_or_reports_witness :
  (exists host,
      App.gameState (App.initHost (Some "host") (App.setMyName "Ann" App.initial))
      = Some (mkGameState [("host", host)] [] None GAME_DURATION None) /\
      inArena host) /\
  App.phase (App.initHost (Some "host") App.initial) = MENU /\
  App.phase (App.initHost None (App.setMyName "Ann" App.initial)) = MENU /\
  App.gameState (App.initHost None (App.setMyName "Ann" App.initial)) = None /\
  App.error (App.initHost None (App.setMyName "Ann" App.initial)) <> "".
Proof.
  split; [|split].
  - destruct (proj1 (initHost_opens_lobby_or_reports (Some "host")
                       (App.setMyName "Ann" App.initial)) "host")
      as (host & Heq & _ & _ & Hin & _).
    + discriminate.
    + reflexivity.
    + exists host. rewrite Heq. split; [reflexivity|exact Hin].
  - destruct (proj2 (initHost_opens_lobby_or_reports (Some "host") App.initial))
      as (msg & _ & Heq).
    + left. reflexivity.
    + rewrite Heq. reflexivity.
  - destruct (proj2 (initHost_opens_lobby_or_reports None
                       (App.setMyName "Ann" App.initial)))
      as (msg & Hmsg & Heq).
    + right. reflexivity.
    + rewrite Heq. repeat split. exact Hmsg.
Defined.

(** X17. What [joinGame] does once it runs to its end, [peerId] being what
    the awaited [peerService.initialize()] resolved to ([None]: it rejected)
    and [connected] whether the awaited [peerService.connectToHost] resolved
    or rejected.  It enters the lobby, having recorded its peer id and sent
    the host exactly one [JOIN_REQUEST] with the player's name and skin,
    exactly when a name and a room id were given and both calls resolved;
    otherwise (a field is empty, tested before the calls, or a call rejected)
    it sends nothing, keeps the phase and reports an error.  It never changes
    the game state or the host flag.  While an awaited call stays pending
    [joinGame] has not run to its end, and nothing is said here. *)
Theorem joinGame_enters_lobby_or_reports :
  forall joinId peerId connected a,
    let r := Client.joinGame joinId peerId connected a in
    let ok := negb (String.eqb (App.myName a) "")
              && negb (String.eqb joinId "")
              && match peerId with Some _ => connected | None => false end in
    (ok = true ->
     exists i, peerId = Some i /\ App.myId (fst r) = i /\
               App.phase (fst r) = LOBBY /\
               snd r = [SendToHost (JOIN_REQUEST (App.myName a) (App.mySkin a))] /\
               App.error (fst r) = App.error a) /\
    (ok = false ->
     snd r = [] /\ App.phase (fst r) = App.phase a /\
     App.error (fst r) <> "") /\
    App.gameState (fst r) = App.gameState a /\
    App.isHost (fst r) = App.isHost a.
Proof.
  intros joinId peerId connected a r ok. unfold r, ok, Client.joinGame.
  destruct (String.eqb (App.myName a) ""); simpl.
  - repeat split; try discriminate; auto.
  - destruct (String.eqb joinId ""); simpl.
    + repeat split; try discriminate; auto.
    + destruct peerId as [i|]; [destruct connected|]; simpl;
        repeat split; try discriminate; auto.
      intros _. exists i. repeat split.
Qed.

Lemma joinGame_enters_lobby_or_reports_witness :
  let a := App.setMyName "Bob" App.initial in
  snd (Client.joinGame "room" (Some "guest") true a)
    = [SendToHost (JOIN_REQUEST "Bob" SANTA)] /\
  App.phase (fst (Client.joinGame "room" (Some "guest") true a)) = LOBBY /\
  snd (Client.joinGame "room" (Some "guest") false a) = [] /\
  App.phase (fst (Client.joinGame "room" (Some "guest") false a)) = MENU.
Proof.
  intros a.
  destruct (joinGame_enters_lobby_or_reports "room" (Some "guest") true a)
    as (Hok & _).
  destruct (Hok eq_refl) as (i & _ & _ & Hph & Hout & _).
  destruct (joinGame_enters_lobby_or_reports "room" (Some "guest") false a)
    as (_ & Hfail & _).
  destruct (Hfail eq_refl) as (Hnone & Hph' & _).
  repeat split; assumption.
Defined.

(** X18. The join handshake end to end: a guest with a name joins a room,
    the host handles its request, the guest handles the host's reply.
    Afterwards the guest is in the lobby holding exactly the host's game
    state, in which its own peer id leads to a player carrying its name and
    skin; the later start signal takes it to the playing phase with that
    state. *)
Theorem join_handshake_gives_guest_the_host_state :
  forall joinId me rx ry guest host prev,
    App.myName guest <> "" -> joinId <> "" ->
    App.gameState host = Some prev ->
    let joined := Client.joinGame joinId (Some me) true guest in
    exists n k next,
      snd joined = [SendToHost (JOIN_REQUEST n k)] /\
      snd (App.hostOnMessage rx ry (JOIN_REQUEST n k) me host)
        = [SendToPeer me (JOIN_ACCEPT next me)] /\
      App.gameState (fst (App.hostOnMessage rx ry (JOIN_REQUEST n k) me host))
        = Some next /\
      let inLobby := Client.onMessage joinId (JOIN_ACCEPT next me) (fst joined) in
      App.gameState inLobby = Some next /\
      App.phase inLobby = LOBBY /\
      App.hostId inLobby = joinId /\
      (exists p, lookup (App.myId inLobby) (players next) = Some p /\
                 id p = me /\ name p = App.myName guest /\
                 skin p = App.mySkin guest) /\
      App.phase (Client.onMessage joinId START_GAME inLobby) = PLAYING /\
      App.gameState (Client.onMessage joinId START_GAME inLobby) = Some next.
Proof.
  intros joinId me rx ry guest host prev Hn Hj Hgs joined.
  unfold joined, Client.joinGame.
  apply String.eqb_neq in Hn. apply String.eqb_neq in Hj. rewrite Hn, Hj.
  simpl. rewrite Hgs. simpl.
  eexists. eexists. eexists. split; [reflexivity|]. split; [reflexivity|].
  split; [reflexivity|]. simpl. split; [reflexivity|].
  split; [reflexivity|]. split; [reflexivity|]. split; [|split; reflexivity].
  eexists. split; [apply lookup_assign_eq|]. simpl. auto.
Qed.

Lemma join_handshake_gives_guest_the_host_state_witness :
  let host := App.initHost (Some "host") (App.setMyName "Ann" App.initial) in
  let guest := App.setMySkin ELF (App.setMyName "Bob" App.initial) in
  exists next,
    snd (App.hostOnMessage (1 # 4) (1 # 2) (JOIN_REQUEST "Bob" ELF) "guest" host)
      = [SendToPeer "guest" (JOIN_ACCEPT next "guest")] /\
    App.gameState
      (Client.onMessage "host" (JOIN_ACCEPT next "guest")
         (fst (Client.joinGame "host" (Some "guest") true guest)))
    = Some next /\
    map fst (players next) = ["host"; "guest"].
Proof.
  intros host guest.
  destruct (join_handshake_gives_guest_the_host_state "host" "guest" (1 # 4)
              (1 # 2) guest host
              (mkGameState
                 [("host",
                   mkPlayer "host" (CANVAS_WIDTH / 2) (CANVAS_HEIGHT / 2) 0%Z
                     SANTA "Ann" true 0 0 None None)]
                 [] None GAME_DURATION None))
    as (n & k & next & Hreq & Hrep & Hgs & Hcl & _).
  - discriminate.
  - discriminate.
  - reflexivity.
  - injection Hreq as <- <-.
    exists next. split; [exact Hrep|]. split; [exact Hcl|].
    vm_compute in Hgs. now injection Hgs as <-.
Defined.

(** * The peer service *)

Lemma broadcast_map msg sv :
  PeerService.broadcast msg sv
  = map (fun c => (PeerService.peer c, msg))
      (filter PeerService.open (PeerService.connections sv)).
Proof.
  unfold PeerService.broadcast.
  induction (PeerService.connections sv) as [|c l IH]; simpl; auto.
  destruct (PeerService.open c); simpl; now rewrite IH.
Qed.

(** X19. A broadcast hands the message once to every open connection, in
    order of connection, and to no closed one.  Once the close handler of a
    connection has run, broadcasts reach the remaining peers as before and
    never that connection's peer again, messages addressed to that peer go
    nowhere, and a host connection to that peer is forgotten. *)
Theorem closed_peer_receives_nothing :
  forall msg conn sv,
    PeerService.broadcast msg sv
    = map (fun c => (PeerService.peer c, msg))
        (filter PeerService.open (PeerService.connections sv)) /\
    PeerService.broadcast msg (PeerService.onClose conn sv)
    = filter (fun pm => negb (String.eqb (fst pm) (PeerService.peer conn)))
        (PeerService.broadcast msg sv) /\
    (forall other, ~ In (PeerService.peer conn, other)
                     (PeerService.broadcast msg (PeerService.onClose conn sv))) /\
    PeerService.sendToPeer (PeerService.peer conn) msg
      (PeerService.onClose conn sv) = [] /\
    (forall h, PeerService.hostConnection sv = Some h ->
               PeerService.peer h = PeerService.peer conn ->
               PeerService.sendToHost msg (PeerService.onClose conn sv) = []).
Proof.
  intros msg conn sv.
  assert (Hb : PeerService.broadcast msg (PeerService.onClose conn sv)
               = filter (fun pm => negb (String.eqb (fst pm)
                                          (PeerService.peer conn)))
                   (PeerService.broadcast msg sv)).
  { unfold PeerService.broadcast, PeerService.onClose. simpl.
    induction (PeerService.connections sv) as [|c l IH]; simpl; auto.
    destruct (String.eqb (PeerService.peer c) (PeerService.peer conn)) eqn:E;
      destruct (PeerService.open c) eqn:Eo; simpl;
      rewrite ?Eo; simpl; rewrite ?E; simpl; now rewrite IH. }
  split; [apply broadcast_map|]. split; [exact Hb|]. split; [|split].
  - intros other Hin. rewrite Hb in Hin. apply filter_In in Hin.
    destruct Hin as [_ Hne]. simpl in Hne.
    now rewrite String.eqb_refl in Hne.
  - unfold PeerService.sendToPeer, PeerService.onClose. simpl.
    induction (PeerService.connections sv) as [|c l IH]; simpl; auto.
    destruct (String.eqb (PeerService.peer c) (PeerService.peer conn)) eqn:E;
      simpl; auto. now rewrite E.
  - intros h Hh Hp. unfold PeerService.sendToHost, PeerService.onClose. simpl.
    rewrite Hh, Hp, String.eqb_refl. reflexivity.
Qed.

Lemma closed_peer_receives_nothing_witness :
  let sv := PeerService.mkService true
              [PeerService.mkConn "bob" true; PeerService.mkConn "eve" false;
               PeerService.mkConn "kim" true] None "host" in
  PeerService.broadcast START_GAME sv = [("bob", START_GAME); ("kim", START_GAME)] /\
  PeerService.broadcast START_GAME
    (PeerService.onClose (PeerService.mkConn "bob" true) sv)
  = [("kim", START_GAME)] /\
  PeerService.sendToHost START_GAME
    (PeerService.onClose (PeerService.mkConn "bob" true)
       (PeerService.mkService true [] (Some (PeerService.mkConn "bob" true)) "me"))
  = [].
Proof.
  intros sv.
  destruct (closed_peer_receives_nothing START_GAME
              (PeerService.mkConn "bob" true) sv) as (H1 & H2 & _).
  split; [rewrite H1; reflexivity|]. split; [rewrite H2, H1; reflexivity|].
  destruct (closed_peer_receives_nothing START_GAME
              (PeerService.mkConn "bob" true)
              (PeerService.mkService true []
                 (Some (PeerService.mkConn "bob" true)) "me"))
    as (_ & _ & _ & _ & H).
  now apply (H (PeerService.mkConn "bob" true)).
Defined.

Lemma find_app_none {A} (f : A -> bool) l a :
  find f l = None -> find f (l ++ [a]) = if f a then Some a else None.
Proof.
  induction l as [|b l IH]; simpl; auto.
  destruct (f b); [discriminate|auto].
Qed.

(** X20. A message addressed to a peer goes to at most one connection, the
    first one of that peer, and only if it is open; to an unknown peer
    nothing is sent.  A newly accepted open connection of a peer not yet
    connected is reached at once; if an earlier connection of that peer is
    still listed, the message keeps going to the earlier one. *)
Theorem sendToPeer_reaches_first_connection :
  forall peerId msg conn sv,
    (List.length (PeerService.sendToPeer peerId msg sv) <= 1)%nat /\
    (forall pm, In pm (PeerService.sendToPeer peerId msg sv) ->
                pm = (peerId, msg)) /\
    (find (fun c => String.eqb (PeerService.peer c) peerId)
       (PeerService.connections sv) = None ->
     PeerService.sendToPeer peerId msg sv = [] /\
     (PeerService.peer conn = peerId -> PeerService.open conn = true ->
      PeerService.sendToPeer peerId msg (PeerService.onConnection conn sv)
      = [(peerId, msg)])) /\
    (forall first,
        find (fun c => String.eqb (PeerService.peer c) peerId)
          (PeerService.connections sv) = Some first ->
        PeerService.sendToPeer peerId msg (PeerService.onConnection conn sv)
        = PeerService.sendToPeer peerId msg sv).
Proof.
  intros peerId msg conn sv. unfold PeerService.sendToPeer.
  split; [|split; [|split]].
  - destruct (find _ _) as [c|]; [destruct (PeerService.open c)|]; simpl; lia.
  - intros pm.
    destruct (find _ _) as [c|] eqn:Hf; [|intros []].
    apply find_some in Hf. destruct Hf as [_ Hp]. apply String.eqb_eq in Hp.
    destruct (PeerService.open c); [|intros []].
    intros [<-|[]]. now rewrite Hp.
  - intros Hnone. rewrite Hnone. split; [reflexivity|].
    intros Hp Ho. simpl. rewrite (find_app_none _ _ conn Hnone).
    rewrite <- Hp, String.eqb_refl, Ho. reflexivity.
  - intros first Hf. simpl. rewrite Hf.
    assert (Hfa : find (fun c => String.eqb (PeerService.peer c) peerId)
                    (PeerService.connections sv ++ [conn]) = Some first).
    { revert Hf. induction (PeerService.connections sv) as [|c l IH]; simpl;
        [discriminate|].
      destruct (String.eqb (PeerService.peer c) peerId); auto. }
    now rewrite Hfa.
Qed.

Lemma sendToPeer_reaches_first_connection_witness :
  let stale := PeerService.mkConn "bob" false in
  let fresh := PeerService.mkConn "bob" true in
  let sv := PeerService.mkService true [stale] None "host" in
  PeerService.sendToPeer "bob" START_GAME
    (PeerService.onConnection fresh PeerService.initial)
  = [("bob", START_GAME)] /\
  PeerService.sendToPeer "bob" START_GAME (PeerService.onConnection fresh sv)
  = [].
Proof.
  intros stale fresh sv.
  destruct (sendToPeer_reaches_first_connection "bob" START_GAME fresh
              PeerService.initial) as (_ & _ & Hnew & _).
  destruct (Hnew eq_refl) as [_ Hreach].
  destruct (sendToPeer_reaches_first_connection "bob" START_GAME fresh sv)
    as (_ & _ & _ & Hold).
  split.
  - now apply Hreach.
  - rewrite (Hold stale eq_refl). reflexivity.
Defined.

(** * From the host's frame to the guest's screen *)

(** The effects of a host frame, whole. *)
Lemma gameLoop_host_effects my fr lv s :
  let r := gameLoop true my fr lv s in
  (exists w, snd r = [OnGameOver w]) \/
  exists trig net,
    snd r = trig ++ net ++ [Render (snd (fst r)); RequestAnimationFrame] /\
    (trig = [] \/ trig = [TriggerGeminiEvent]) /\
    (net = [] \/
     net = [Broadcast (GAME_UPDATE (snd (fst r)));
            SetOverlay (orNull event_name (activeEvent (snd (fst r))))
              (orNull description (activeEvent (snd (fst r))))
              (timeLeft (snd (fst r)))]).
Proof.
  unfold gameLoop.
  destruct (handleLocalInput_host my (keysPressed fr) s) as [He _].
  destruct (handleLocalInput true my (keysPressed fr) s) as [s1 e1].
  simpl in He. subst e1.
  destruct (Qle_bool _ 0).
  - left. eexists. reflexivity.
  - right.
    match goal with
    | |- context [hostLogic ?f ?d ?l ?st] =>
        pose proof (hostLogic_effects f d l st) as (trig & net & Heq & Ht & Hn);
        destruct (hostLogic f d l st) as [[lv' s'] eh]
    end.
    simpl in *. subst eh. exists trig, net.
    split; [now rewrite <- app_assoc|]. split; [exact Ht|].
    destruct Hn as [Hn|[_ Hn]]; auto.
Qed.

(** X21. What a host frame hands to the peer service is either nothing or
    one copy of the snapshot for each open connection; and any guest that
    handles such a message ends up, whatever it held before, with exactly the
    state the host has at the end of that frame. *)
Theorem host_snapshot_replaces_guest_state :
  forall my fr lv s sv,
    let r := gameLoop true my fr lv s in
    let sent := flat_map (PeerService.deliver sv) (snd r) in
    (sent = [] \/
     sent = map (fun c => (PeerService.peer c, GAME_UPDATE (snd (fst r))))
              (filter PeerService.open (PeerService.connections sv))) /\
    (forall p m held,
        In (p, m) sent ->
        fst (clientOnMessage m held) = snd (fst r) /\
        exists c, In c (PeerService.connections sv) /\
                  PeerService.open c = true /\ PeerService.peer c = p).
Proof.
  intros my fr lv s sv r sent.
  assert (Hsent :
            sent = [] \/
            sent = map (fun c => (PeerService.peer c, GAME_UPDATE (snd (fst r))))
                     (filter PeerService.open (PeerService.connections sv))).
  { unfold sent.
    destruct (gameLoop_host_effects my fr lv s)
      as [[w Hw]|(trig & net & Heq & Ht & Hn)]; fold r in Hw || fold r in Heq.
    - rewrite Hw. now left.
    - rewrite Heq, !flat_map_app.
      destruct Ht as [-> | ->]; destruct Hn as [-> | ->]; simpl;
        rewrite ?app_nil_r; auto.
      + right. apply broadcast_map.
      + right. apply broadcast_map. }
  split; [exact Hsent|].
  intros p m held Hin. destruct Hsent as [H|H]; rewrite H in Hin;
    [destruct Hin|].
  apply in_map_iff in Hin. destruct Hin as (c & Hc & Hin).
  injection Hc as <- <-. apply filter_In in Hin. destruct Hin as [Hin Ho].
  split; [reflexivity|]. now exists c.
Qed.

Lemma host_snapshot_replaces_guest_state_witness :
  let ann := mkPlayer "host" 100 100 0%Z SANTA "Ann" true 0 0 None None in
  let s := mkGameState [("host", ann)] [mkPresent "g1" 120 110 5%Z] None 100
             None in
  let fr := mkFrame 1050 (fun _ => false) (1 # 2) "abc" 0 0 0 in
  let r := gameLoop true "host" fr (mkLoopVars 1000 1000 0) s in
  let sv := PeerService.mkService true [PeerService.mkConn "bob" true] None
              "host" in
  let stale := mkGameState [] [] None 120 None in
  flat_map (PeerService.deliver sv) (snd r)
    = [("bob", GAME_UPDATE (snd (fst r)))] /\
  fst (clientOnMessage (GAME_UPDATE (snd (fst r))) stale) = snd (fst r) /\
  timeLeft (snd (fst r)) == 100 - (5 # 100).
Proof.
  intros ann s fr r sv stale.
  assert (Hin : In ("bob", GAME_UPDATE (snd (fst r)))
                  (flat_map (PeerService.deliver sv) (snd r)))
    by (vm_compute; auto).
  destruct (host_snapshot_replaces_guest_state "host" fr
              (mkLoopVars 1000 1000 0) s sv) as [_ H].
  destruct (H "bob" _ stale Hin) as [Hst _].
  split; [vm_compute; reflexivity|]. split; [exact Hst|].
  vm_compute. reflexivity.
Defined.

(** * The leaderboard *)

Lemma insertByScore_perm a l : Permutation (insertByScore a l) (a :: l).
Proof.
  induction l as [|b l IH]; simpl; auto.
  destruct (score b - score a <=? 0)%Z; auto.
  eapply perm_trans; [apply perm_skip, IH|apply perm_swap].
Qed.

Lemma insertByScore_hd a x l :
  HdRel (fun p q => (score q <= score p)%Z) x l ->
  (score a <= score x)%Z ->
  HdRel (fun p q => (score q <= score p)%Z) x (insertByScore a l).
Proof.
  intros Hh Ha. destruct l as [|b l]; simpl.
  - now constructor.
  - destruct (score b - score a <=? 0)%Z; constructor; auto.
    now inversion Hh.
Qed.

Lemma insertByScore_sorted a l :
  Sorted (fun p q => (score q <= score p)%Z) l ->
  Sorted (fun p q => (score q <= score p)%Z) (insertByScore a l).
Proof.
  induction 1 as [|b l Hs IH Hh]; simpl.
  - repeat constructor.
  - destruct (score b - score a <=? 0)%Z eqn:E.
    + apply Z.leb_le in E. constructor; [now constructor|].
      constructor. lia.
    + apply Z.leb_gt in E. constructor; auto.
      apply insertByScore_hd; auto. lia.
Qed.

Lemma insertByScore_stable z a l :
  filter (fun p => (score p =? z)%Z) (insertByScore a l)
  = filter (fun p => (score p =? z)%Z) (a :: l).
Proof.
  induction l as [|b l IH]; simpl; auto.
  destruct (score b - score a <=? 0)%Z eqn:E; simpl; auto.
  apply Z.leb_gt in E. rewrite IH. simpl.
  destruct (score a =? z)%Z eqn:Ea; destruct (score b =? z)%Z eqn:Eb; auto.
  apply Z.eqb_eq in Ea. apply Z.eqb_eq in Eb. lia.
Qed.

(** X22. The leaderboard lists every player exactly once, in order of
    non-increasing score, and players with equal scores in the order of the
    player map; the winner of the match is the id at its head. *)
Theorem leaderboard_sorted_stable :
  forall ps,
    Permutation (leaderboard ps) (values ps) /\
    Sorted (fun p q => (score q <= score p)%Z) (leaderboard ps) /\
    (forall z, filter (fun p => (score p =? z)%Z) (leaderboard ps)
               = filter (fun p => (score p =? z)%Z) (values ps)) /\
    getWinner ps = match leaderboard ps with first :: _ => id first | [] => "" end.
Proof.
  intros ps. unfold leaderboard, getWinner. generalize (values ps) as l.
  intros l. split; [|split; [|split]].
  - induction l as [|a l IH]; simpl; auto.
    eapply perm_trans; [apply insertByScore_perm|now apply perm_skip].
  - induction l as [|a l IH]; simpl; [constructor|].
    now apply insertByScore_sorted.
  - intros z. induction l as [|a l IH]; simpl; auto.
    rewrite insertByScore_stable. simpl. now rewrite IH.
  - destruct (sortByScore l); reflexivity.
Qed.

(** * A response that parses *)

(** X23. With a credential and a non-empty response text that parses to a
    JSON object, [generateChaosEvent] returns the object's [name],
    [description], [type] and [duration] as they are, present or not, with
    [active = true]; the result is a valid event exactly when the object's
    name is a non-empty string and its type one of the six type names, and no
    fallback replaces it otherwise. *)
Theorem parsed_object_returned_unchecked :
  forall JSON_parse key t fields,
    key <> "" -> t <> "" -> JSON_parse t = Some (Gemini.JObject fields) ->
    exists ev,
      Gemini.generateChaosEvent JSON_parse (Some key)
        (Gemini.Responded (Some t)) = Gemini.Resolved ev /\
      Gemini.name ev = lookup "name" fields /\
      Gemini.description ev = lookup "description" fields /\
      Gemini.type ev = lookup "type" fields /\
      Gemini.duration ev = lookup "duration" fields /\
      Gemini.active ev = true /\
      Gemini.validEvent ev
      = Gemini.nonEmptyString (lookup "name" fields)
        && Gemini.allowedType (lookup "type" fields).
Proof.
  intros parse key t fields Hk Ht Hp. unfold Gemini.generateChaosEvent.
  apply String.eqb_neq in Hk. apply String.eqb_neq in Ht.
  rewrite Hk. simpl. rewrite Ht, Hp. simpl.
  eexists. split; [reflexivity|]. simpl. repeat split.
  unfold Gemini.validEvent. simpl. now rewrite andb_true_r.
Qed.

Lemma parsed_object_returned_unchecked_witness :
  let parse := fun t : string =>
                 if String.eqb t "{}" then Some (Gemini.JObject []) else None in
  exists ev,
    Gemini.generateChaosEvent parse (Some "key") (Gemini.Responded (Some "{}"))
    = Gemini.Resolved ev /\
    Gemini.name ev = None /\ Gemini.validEvent ev = false.
Proof.
  intros parse.
  destruct (parsed_object_returned_unchecked parse "key" "{}" [])
    as (ev & Hres & Hn & _ & _ & _ & _ & Hv).
  - discriminate.
  - discriminate.
  - reflexivity.
  - exists ev. split; [exact Hres|]. split; [exact Hn|]. rewrite Hv. reflexivity.
Defined.
